(** * gozstd: block-mode compression pipeline

    A shallow embedding of the block-mode code of the command line tool
    (package main: [divideFileIntoSegments], [compressPart],
    [concatenateFiles], [compressFileBlock], [decompressFile]) and the
    properties of its segment planner, segment worker, reassembler and
    orchestrator. *)

From Stdlib Require Import ZArith Lia Strings.Byte Ascii String.
From stdpp Require Import base tactics option list gmap strings sorting.

Local Open Scope Z_scope.

(** ** Go's [int64]: two's complement with wrap-around *)

Module Int64.

Definition min_int : Z := -9223372036854775808.
Definition max_int : Z := 9223372036854775807.

(** The value an [int64] holds after an operation whose mathematical
    result is [z]. *)
Definition wrap (z : Z) : Z :=
  (z + 9223372036854775808) mod 18446744073709551616 - 9223372036854775808.

Definition add (a b : Z) : Z := wrap (a + b).
Definition sub (a b : Z) : Z := wrap (a - b).
Definition mul (a b : Z) : Z := wrap (a * b).
(** Go's [/] and [%] truncate towards zero. *)
Definition quot (a b : Z) : Z := wrap (Z.quot a b).
Definition rem (a b : Z) : Z := Z.rem a b.

Definition in_range (z : Z) : Prop := min_int <= z <= max_int.

End Int64.

(** ** Results of fallible Go code

    A call returns a value, returns a non-nil [error], or panics. *)

Inductive result (A : Type) : Type :=
| Ok (a : A)
| Error (e : string)
| Panic (msg : string).
Arguments Ok {A} a.
Arguments Error {A} e.
Arguments Panic {A} msg.

(** ** The segment planner *)

(** [const oneMB = 1 << 20] *)
Definition oneMB : Z := Z.shiftl 1 20.

(** A segment is the [[2]int64] pair [{start, end}]. *)
Abbreviation Segment := (Z * Z)%type.

(** The body of [for i := 0; i < threadCount; i++], with [n] iterations
    still to run. *)
Fixpoint segments_loop (n : nat) (fileSize segmentSizeMB remainingMB start : Z)
  : list Segment :=
  match n with
  | O => []
  | S n' =>
      let end0 := Int64.add start (Int64.mul segmentSizeMB oneMB) in
      let end1 := if 0 <? remainingMB then Int64.add end0 oneMB else end0 in
      let remainingMB' :=
        if 0 <? remainingMB then Int64.sub remainingMB 1 else remainingMB in
      let end2 := if fileSize <? end1 then fileSize else end1 in
      (start, end2) :: segments_loop n' fileSize segmentSizeMB remainingMB' end2
  end.

Definition divideFileIntoSegments (fileSize threadCount : Z)
  : result (list Segment) :=
  let fileSizeMB :=
    Int64.quot (Int64.sub (Int64.add fileSize oneMB) 1) oneMB in
  if threadCount =? 0 then Panic "runtime error: integer divide by zero"
  else
    let segmentSizeMB := Int64.quot fileSizeMB threadCount in
    let remainingMB := Int64.rem fileSizeMB threadCount in
    Ok (segments_loop (Z.to_nat threadCount) fileSize segmentSizeMB remainingMB 0).

(** [divmod]: quotient and remainder of [int64] division; dividing by zero
    panics. *)
Definition divmod (numerator denominator : Z) : result (Z * Z) :=
  if denominator =? 0 then Panic "runtime error: integer divide by zero"
  else Ok (Int64.quot numerator denominator, Int64.rem numerator denominator).

(** The largest file size whose round-up to whole MiB fits an [int64]. *)
Definition maxPlannable : Z := Int64.max_int - oneMB + 1.

(** The number of MiB units of a file, rounded up. *)
Definition unitsOf (fileSize : Z) : Z := (fileSize + oneMB - 1) / oneMB.

(** Units handed to the segments before index [i], when every segment gets
    [q] units and the first [rem] get one more. *)
Definition unitsBefore (q rem i : Z) : Z := i * q + Z.min i rem.

(** *** Segment predicates *)

Definition aligned (fileSize e : Z) : Prop := (oneMB | e) \/ e = fileSize.

Definition well_formed (seg : Segment) : Prop := seg.1 <= seg.2.

Fixpoint contiguous (start : Z) (segs : list Segment) : Prop :=
  match segs with
  | [] => True
  | (s, e) :: tl => s = start /\ contiguous e tl
  end.

Definition last_end (start : Z) (segs : list Segment) : Z :=
  match last segs with Some seg => seg.2 | None => start end.

Definition disjoint_in_order (segs : list Segment) : Prop :=
  forall (i j : nat) si sj, (i < j)%nat ->
    segs !! i = Some si -> segs !! j = Some sj -> si.2 <= sj.1.

Definition covers (segs : list Segment) (x : Z) : Prop :=
  exists s e, (s, e) ∈ segs /\ s <= x < e.

(** Ordered, contiguous from 0 to [fileSize], pairwise disjoint, and with
    union exactly [[0, fileSize)]. *)
Definition partitions (fileSize : Z) (segs : list Segment) : Prop :=
  contiguous 0 segs /\ Forall well_formed segs /\ last_end 0 segs = fileSize /\
  disjoint_in_order segs /\
  (forall x, covers segs x <-> 0 <= x < fileSize).

Definition within (fileSize : Z) (seg : Segment) : Prop :=
  0 <= seg.1 /\ seg.1 <= seg.2 /\ seg.2 <= fileSize.

(** What the planner gives a worker on a plannable size: a range inside the
    file whose two ends are whole MiB or the file size, and which is empty
    only at the end of the file. *)
Definition planned (fileSize : Z) (seg : Segment) : Prop :=
  within fileSize seg /\
  aligned fileSize seg.1 /\ aligned fileSize seg.2 /\
  (seg.1 = seg.2 -> seg.1 = fileSize).

(** Every end but those of the last two segments is a whole number of
    MiB. *)
Definition ends_aligned_but_last_two (segs : list Segment) : Prop :=
  forall (i : nat) seg, segs !! i = Some seg ->
    (i + 2 < length segs)%nat -> (oneMB | seg.2).

(** ** File names: [strconv], [strings] and [filepath] *)

Definition digitChar (d : Z) : ascii := ascii_of_nat (Z.to_nat (48 + d)).

(** Decimal digits of a non-negative number, most significant first, in
    front of [acc]; 20 digits are enough for an [int64]. *)
Fixpoint formatDigits (fuel : nat) (n : Z) (acc : string) : string :=
  match fuel with
  | O => acc
  | S fuel' =>
      let acc' := String (digitChar (n mod 10)) acc in
      if n <? 10 then acc' else formatDigits fuel' (n / 10) acc'
  end.

(** [%d] of an [int]. *)
Definition Itoa (n : Z) : string :=
  if n <? 0 then String "-" (formatDigits 20 (- n) "")
  else formatDigits 20 n "".

Fixpoint parseDigits (s : string) (acc : Z) : option Z :=
  match s with
  | EmptyString => Some acc
  | String c s' =>
      let d := Z.of_nat (nat_of_ascii c) - 48 in
      if (0 <=? d) && (d <=? 9) then parseDigits s' (acc * 10 + d) else None
  end.

(** [strconv.Atoi]: an optional sign and at least one decimal digit, with
    a value that fits an [int]; [None] is the error. *)
Definition Atoi (s : string) : option Z :=
  match s with
  | EmptyString => None
  | String c r =>
      let neg := Ascii.eqb c "-" in
      let digits := if neg || Ascii.eqb c "+" then r else s in
      match digits with
      | EmptyString => None
      | _ =>
          match parseDigits digits 0 with
          | Some v =>
              let v' := if neg then - v else v in
              if (Int64.min_int <=? v') && (v' <=? Int64.max_int) then Some v'
              else None
          | None => None
          end
      end
  end.

Definition isDigit (c : ascii) : bool :=
  (48 <=? nat_of_ascii c)%nat && (nat_of_ascii c <=? 57)%nat.

Fixpoint allDigits (s : string) : bool :=
  match s with
  | EmptyString => true
  | String c s' => isDigit c && allDigits s'
  end.

Fixpoint hasChar (c : ascii) (s : string) : bool :=
  match s with
  | EmptyString => false
  | String c' s' => if Ascii.eqb c' c then true else hasChar c s'
  end.

(** [strings.SplitN(s, sep, 2)] for a one-character separator: [None] when
    the result has a single part, otherwise the two parts. *)
Fixpoint splitFirst (sep : ascii) (s : string) : option (string * string) :=
  match s with
  | EmptyString => None
  | String c s' =>
      if Ascii.eqb c sep then Some (EmptyString, s')
      else match splitFirst sep s' with
           | Some (a, b) => Some (String c a, b)
           | None => None
           end
  end.

Fixpoint stripTrailingSlashes (s : string) : string :=
  match s with
  | EmptyString => EmptyString
  | String c s' =>
      match stripTrailingSlashes s' with
      | EmptyString => if Ascii.eqb c "/" then EmptyString else String c EmptyString
      | r => String c r
      end
  end.

Fixpoint afterLastSlash (s : string) : string :=
  match s with
  | EmptyString => EmptyString
  | String c s' =>
      if hasChar "/" s' then afterLastSlash s'
      else if Ascii.eqb c "/" then s' else s
  end.

(** [filepath.Base] with [/] as the separator. *)
Definition Base (path : string) : string :=
  match path with
  | EmptyString => "."
  | _ =>
      match afterLastSlash (stripTrailingSlashes path) with
      | EmptyString => "/"
      | p => p
      end
  end.

(** The name [compressPart] gives the part file of a segment. *)
Definition partName (inputFile : string) (segmentIndex : Z) : string :=
  Itoa segmentIndex +:+ "-" +:+ Base inputFile +:+ "-output-segment.part"
    +:+ Itoa segmentIndex.

(** ** The segment worker *)

(** What [input.Read(buf)] returns: [n] bytes with a nil or [io.EOF]
    error, or an error that is neither. *)
Inductive ReadResult : Type :=
| ReadBytes (chunk : list byte)
| ReadFailed (e : string).

(** [os.Open(inputFile)]: a handle on a seekable file, given by what a
    [Read] into the 1 MiB buffer returns at each cursor position, or an
    error.  A [Read] that returns [n] bytes moves the cursor by [n]. *)
Inductive OpenResult : Type :=
| Opened (read : Z -> ReadResult)
| OpenFailed (e : string).

(** The system calls a worker makes; [Some e] is the error of a call that
    fails.  [writeOutput] and [tellInput] are asked at the cursor position
    of the iteration's [Read].  When [input.Seek(0, io.SeekCurrent)] does
    not fail, the offset it reports is the cursor of the seekable file. *)
Record PartIO : Type := {
  openInput : OpenResult;
  createOutput : option string;
  newEncoder : option string;
  writeOutput : Z -> option string;
  tellInput : Z -> option string;
}.

(** Reading a regular file with content [X] through a 1 MiB buffer. *)
Definition fileRead (X : list byte) (pos : Z) : ReadResult :=
  ReadBytes (take (Z.to_nat oneMB) (drop (Z.to_nat pos) X)).

(** The bytes of [X] from offset [s] up to offset [e]. *)
Definition slice (s e : Z) (X : list byte) : list byte :=
  take (Z.to_nat (e - s)) (drop (Z.to_nat s) X).

(** A worker whose calls all succeed on a regular file. *)
Definition fileIO (X : list byte) : PartIO :=
  {| openInput := Opened (fileRead X);
     createOutput := None;
     newEncoder := None;
     writeOutput := fun _ => None;
     tellInput := fun _ => None |}.

Definition overReadMsg : string :=
  "[ERROR] I read over the endOffset. That means you pass me index not end in 1MB boundary".

(** One pass through the body of the [for] loop of [compressPart], from
    cursor [pos] with [written] already in the part file: the loop goes
    on, or it is left by [break], [return] or [panic]. *)
Inductive Step : Type :=
| Continue (pos : Z) (written : list byte)
| Done (r : result unit) (written : list byte).

Definition iteration (encode : list byte -> list byte) (io : PartIO)
    (read : Z -> ReadResult) (endOffset pos : Z) (written : list byte) : Step :=
  match read pos with
  | ReadFailed e => Done (Error ("failed to read input: " +:+ e)) written
  | ReadBytes chunk =>
      let n := Z.of_nat (length chunk) in
      if n =? 0 then Done (Ok ()) written
      else
        let compressed := encode chunk in
        match writeOutput io pos with
        | Some e => Done (Error ("failed to write output: " +:+ e)) written
        | None =>
            let written' := written ++ compressed in
            match tellInput io pos with
            | Some e =>
                Done (Error ("failed to get current offset: " +:+ e)) written'
            | None =>
                let currentOffset := pos + n in
                if currentOffset =? endOffset then Done (Ok ()) written'
                else if endOffset <? currentOffset
                     then Done (Panic overReadMsg) written'
                     else Continue currentOffset written'
            end
        end
  end.

(** The loop; [None] is running out of [fuel]. *)
Fixpoint readLoop (fuel : nat) (encode : list byte -> list byte) (io : PartIO)
    (read : Z -> ReadResult) (endOffset pos : Z) (written : list byte)
  : option (result unit * list byte) :=
  match fuel with
  | O => None
  | S fuel' =>
      match iteration encode io read endOffset pos written with
      | Done r written' => Some (r, written')
      | Continue pos' written' =>
          readLoop fuel' encode io read endOffset pos' written'
      end
  end.

(** The loop is at cursor [pos] with [written] in the part file when it
    starts its iteration number [k] (from 0). *)
Fixpoint reaches (k : nat) (encode : list byte -> list byte) (io : PartIO)
    (read : Z -> ReadResult) (endOffset pos0 : Z) (written0 : list byte)
    (pos : Z) (written : list byte) : Prop :=
  match k with
  | O => pos = pos0 /\ written = written0
  | S k' =>
      match iteration encode io read endOffset pos0 written0 with
      | Continue pos1 written1 =>
          reaches k' encode io read endOffset pos1 written1 pos written
      | Done _ _ => False
      end
  end.

(** The cursor after [input.Seek(startOffset, 0)], whose error is dropped:
    a negative offset is refused and leaves the cursor at 0. *)
Definition seekStart (startOffset : Z) : Z :=
  if startOffset <? 0 then 0 else startOffset.

Section Worker.
Variable EncodeAll : Z -> list byte -> list byte.

(** [compressPart]: the returned name or error, and the content of the
    part file when it was created. *)
Definition compressPart (io : PartIO) (inputFile : string) (segmentIndex : Z)
    (offset : Segment) (compressionLevel : Z)
  : option (result string * option (list byte)) :=
  match openInput io with
  | OpenFailed e => Some (Error ("failed to create openfile: " +:+ e), None)
  | Opened read =>
      let outputFile := partName inputFile segmentIndex in
      match createOutput io with
      | Some e => Some (Error ("failed to create output file: " +:+ e), None)
      | None =>
          match newEncoder io with
          | Some e =>
              Some (Error ("failed to create zstd encoder: " +:+ e), Some [])
          | None =>
              let pos0 := seekStart offset.1 in
              match readLoop (S (Z.to_nat (offset.2 - pos0)))
                      (EncodeAll compressionLevel) io read offset.2 pos0 [] with
              | None => None
              | Some (Ok _, written) => Some (Ok outputFile, Some written)
              | Some (Error e, written) => Some (Error e, Some written)
              | Some (Panic m, written) => Some (Panic m, Some written)
              end
          end
      end
  end.

End Worker.

(** ** The reassembler *)

Record FileWithIndex : Type := { Index : Z; Name : string }.

(** The index in front of the first [-] of the base name. *)
Definition parseIndex (filename : string) : result Z :=
  match splitFirst "-" (Base filename) with
  | None => Error ("invalid filename pattern: " +:+ filename)
  | Some (p0, _) =>
      match Atoi p0 with
      | None => Error ("invalid index in filename: " +:+ filename)
      | Some index => Ok index
      end
  end.

Fixpoint parseAll (filenames : list string) : result (list FileWithIndex) :=
  match filenames with
  | [] => Ok []
  | filename :: rest =>
      match parseIndex filename with
      | Ok index =>
          match parseAll rest with
          | Ok tl => Ok ({| Index := index; Name := filename |} :: tl)
          | Error e => Error e
          | Panic m => Panic m
          end
      | Error e => Error e
      | Panic m => Panic m
      end
  end.

(** The [less] function given to [sort.Slice]:
    [filesWithIndex[i].Index < filesWithIndex[j].Index]. *)
Definition lessIndex (a b : FileWithIndex) : bool := Index a <? Index b.

(** The order [sort.Slice] leaves for a [less] function: an element is
    never [less] than the one before it. *)
Definition sortedBy (less : FileWithIndex -> FileWithIndex -> bool)
    (a b : FileWithIndex) : Prop :=
  less b a = false.

(** What [sort.Slice] asks of its [less] function: a strict weak
    ordering. *)
Definition strictWeakOrder (less : FileWithIndex -> FileWithIndex -> bool)
  : Prop :=
  (forall a, less a a = false) /\
  (forall a b c, less a b = true -> less b c = true -> less a c = true) /\
  (forall a b c, less a b = false -> less b c = false -> less a c = false).

(** Indices that do not decrease. *)
Definition notAfter (a b : FileWithIndex) : Prop := Index a <= Index b.

(** The error of [os.Open] on a name that is not in the directory. *)
Definition openError (name : string) : string :=
  "open " +:+ name +:+ ": no such file or directory".

(** The system calls of the reassembler that can fail for a reason outside
    the files. *)
Record ConcatIO : Type := {
  createDest : option string;
  copyPart : string -> option string;
}.

Definition quietConcat : ConcatIO :=
  {| createDest := None; copyPart := fun _ => None |}.

(** The second loop: [os.Open], [io.Copy], [in.Close] for each file. *)
Fixpoint copyAll (cio : ConcatIO) (outputFile : string)
    (parts : list FileWithIndex) (files : gmap string (list byte))
  : result unit * gmap string (list byte) :=
  match parts with
  | [] => (Ok (), files)
  | file :: rest =>
      match files !! Name file with
      | None =>
          (Error ("failed to open input file " +:+ Name file +:+ ": "
                  +:+ openError (Name file)), files)
      | Some content =>
          match copyPart cio (Name file) with
          | Some e => (Error ("failed to write to output file: " +:+ e), files)
          | None =>
              copyAll cio outputFile rest
                (alter (fun out => out ++ content) outputFile files)
          end
      end
  end.

(** The third loop: [os.Remove] for each file. *)
Definition removeAll (parts : list FileWithIndex)
    (files : gmap string (list byte)) : gmap string (list byte) :=
  foldl (fun fs file => delete (Name file) fs) files parts.

Section Reassembler.
(** [sort.Slice]: the slice after the call, from the [less] function and
    the slice before it. *)
Variable sortSlice :
  (FileWithIndex -> FileWithIndex -> bool) -> list FileWithIndex ->
  list FileWithIndex.

Definition concatenateFiles (cio : ConcatIO) (filenames : list string)
    (outputFile : string) (files : gmap string (list byte))
  : result unit * gmap string (list byte) :=
  match parseAll filenames with
  | Error e => (Error e, files)
  | Panic m => (Panic m, files)
  | Ok filesWithIndex =>
      let sorted := sortSlice lessIndex filesWithIndex in
      match createDest cio with
      | Some e => (Error ("failed to create output file: " +:+ e), files)
      | None =>
          match copyAll cio outputFile sorted (<[outputFile := []]> files) with
          | (Ok _, files') => (Ok (), removeAll sorted files')
          | failed => failed
          end
      end
  end.

End Reassembler.

(** ** The orchestrator *)

(** What the caller of the pipeline observes: how the call ended, the
    files, and the lines printed on standard output. *)
Record Outcome : Type := {
  ret : result unit;
  files : gmap string (list byte);
  stdout : list string;
}.

Definition panicMsg : string := "[ERROR] some errors see above".

(** What a goroutine sends on the two channels, and what it leaves in
    the files. *)
Definition sentName (r : result string) : string :=
  match r with Ok outfile => outfile | _ => "" end.

Definition sentError (r : result string) : option string :=
  match r with Error e => Some e | _ => None end.

Definition writePart (name : string) (part : option (list byte))
    (fs : gmap string (list byte)) : gmap string (list byte) :=
  match part with Some content => <[name := content]> fs | None => fs end.

Definition returned {A} (run : option (result A * option (list byte))) : Prop :=
  exists r part, run = Some (r, part) /\ forall m, r <> Panic m.

Definition succeeded {A} (run : option (result A * option (list byte))) : Prop :=
  exists a part, run = Some (Ok a, part).

Definition payloadOf {A} (run : option (result A * option (list byte))) : list byte :=
  match run with Some (_, Some content) => content | _ => [] end.

Section Orchestrator.
Variable EncodeAll : Z -> list byte -> list byte.
Variable sortSlice :
  (FileWithIndex -> FileWithIndex -> bool) -> list FileWithIndex ->
  list FileWithIndex.
(** The calls each worker goroutine makes, by segment index. *)
Variable io : nat -> PartIO.
Variable cio : ConcatIO.

(** The body of the goroutine started for index [i]: the result of
    [compressPart] on [offset[i]], and the content of the part file when
    it was created. *)
Definition worker (inputFile : string) (compressionLevel : Z)
    (offset : list Segment) (i : nat)
  : option (result string * option (list byte)) :=
  match offset !! i with
  | None => Some (Panic "runtime error: index out of range", None)
  | Some seg =>
      compressPart EncodeAll (io i) inputFile (Z.of_nat i) seg compressionLevel
  end.

(** The name and the error goroutine [i] sends, and the files after it. *)
Definition sent (inputFile : string) (compressionLevel : Z)
    (offset : list Segment) (i : nat) : string :=
  match worker inputFile compressionLevel offset i with
  | Some (r, _) => sentName r
  | None => ""
  end.

Definition failure (inputFile : string) (compressionLevel : Z)
    (offset : list Segment) (i : nat) : option string :=
  match worker inputFile compressionLevel offset i with
  | Some (r, _) => sentError r
  | None => None
  end.

Definition effect (inputFile : string) (compressionLevel : Z)
    (offset : list Segment) (fs : gmap string (list byte)) (i : nat)
  : gmap string (list byte) :=
  match worker inputFile compressionLevel offset i with
  | Some (_, part) => writePart (partName inputFile (Z.of_nat i)) part fs
  | None => fs
  end.

(** The payloads the workers leave, by segment index. *)
Definition payloads (inputFile : string) (compressionLevel : Z)
    (offset : list Segment) (n : nat) : list (list byte) :=
  (fun i => payloadOf (worker inputFile compressionLevel offset i)) <$> seq 0 n.

(** The goroutines, in the order [completed] in which they finish: the
    names sent on [outputFileName] and the errors sent on [errChan].  The
    part file of worker [i] is only touched by worker [i].  A panic in a
    goroutine ends the process. *)
Fixpoint runWorkers (inputFile : string) (compressionLevel : Z)
    (offset : list Segment) (completed : list nat)
    (fs : gmap string (list byte)) (names errs : list string)
  : option (result (list string * list string) * gmap string (list byte)) :=
  match completed with
  | [] => Some (Ok (names, errs), fs)
  | i :: rest =>
      match worker inputFile compressionLevel offset i with
      | None => None
      | Some (r, part) =>
          let fs' :=
            match part with
            | Some content => <[partName inputFile (Z.of_nat i) := content]> fs
            | None => fs
            end in
          match r with
          | Ok outfile =>
              runWorkers inputFile compressionLevel offset rest fs'
                (names ++ [outfile]) errs
          | Error e =>
              runWorkers inputFile compressionLevel offset rest fs'
                (names ++ [""]) (errs ++ [e])
          | Panic m => Some (Panic m, fs')
          end
      end
  end.

(** [calculateSegment]: [os.Stat], then the planner. *)
Definition calculateSegment (fs : gmap string (list byte)) (inputFile : string)
    (numThreads : Z) : result (list Segment) :=
  match fs !! inputFile with
  | None => Error ("stat " +:+ inputFile +:+ ": no such file or directory")
  | Some X => divideFileIntoSegments (Z.of_nat (length X)) numThreads
  end.

Definition compressFileBlock (fs : gmap string (list byte))
    (inputFile outputFile : string) (compressionLevel numThreads : Z)
    (completed : list nat) : option Outcome :=
  match calculateSegment fs inputFile numThreads with
  | Error e => Some {| ret := Error e; files := fs; stdout := [] |}
  | Panic m => Some {| ret := Panic m; files := fs; stdout := [] |}
  | Ok offset =>
      if numThreads <? 0
      then Some {| ret := Panic "makechan: size out of range";
                   files := fs; stdout := [] |}
      else
        match runWorkers inputFile compressionLevel offset completed fs [] [] with
        | None => None
        | Some (Panic m, fs') => Some {| ret := Panic m; files := fs'; stdout := [] |}
        | Some (Error e, fs') => Some {| ret := Error e; files := fs'; stdout := [] |}
        | Some (Ok (outputFiles, errs), fs') =>
            match errs with
            | err :: _ =>
                Some {| ret := Panic panicMsg; files := fs'; stdout := [err] |}
            | [] =>
                let '(_, fs'') :=
                  concatenateFiles sortSlice cio outputFiles outputFile fs' in
                Some {| ret := Ok (); files := fs''; stdout := [] |}
            end
        end
  end.

End Orchestrator.

(** [decompressFile]: the decoder over the whole input stream; [decode]
    gives the decoded stream or the decoder's error. *)
Definition decompressFile (decode : list byte -> result (list byte))
    (input : list byte) : result (list byte) :=
  match decode input with
  | Ok output => Ok output
  | Error e => Error ("failed to decompress data: " +:+ e)
  | Panic m => Panic m
  end.

(** ** The in-memory block mode of [play/tmp/main.go]

    The earlier variant of the block mode: equal byte shares, each read
    through an [io.LimitReader] by [compressSegment], the compressed
    segments kept in memory and written in index order. *)

Module InMemory.

(** The byte range [compressFileBlock] gives goroutine [i]:
    [start := int64(i) * partSize; end := start + partSize], and the file
    size as the end of the last one. *)
Definition partRange (fileSize numThreads i : Z) : Segment :=
  let partSize := Int64.quot fileSize numThreads in
  let start := Int64.mul i partSize in
  let end_ := Int64.add start partSize in
  (start, if i =? numThreads - 1 then fileSize else end_).

(** The ranges of all goroutines, by index. *)
Definition partRanges (fileSize numThreads : Z) : list Segment :=
  (fun i : nat => partRange fileSize numThreads (Z.of_nat i))
    <$> seq 0 (Z.to_nat numThreads).

(** Reading a regular file with content [X] at cursor [pos] into a buffer
    of [m] bytes. *)
Definition fileReadN (X : list byte) (pos m : Z) : ReadResult :=
  ReadBytes (take (Z.to_nat m) (drop (Z.to_nat pos) X)).

(** [io.LimitedReader.Read] into a 1 MiB buffer, over a handle at cursor
    [pos] with [N] bytes left of the limit: at most [N] bytes are asked
    of the handle. *)
Definition limitedRead (readN : Z -> Z -> ReadResult) (st : Z * Z)
  : ReadResult * (Z * Z) :=
  let '(pos, N) := st in
  if N <=? 0 then (ReadBytes [], st)
  else
    let m := if N <? oneMB then N else oneMB in
    match readN pos m with
    | ReadBytes chunk =>
        let n := Z.of_nat (length chunk) in
        (ReadBytes chunk, (pos + n, Int64.sub N n))
    | ReadFailed e => (ReadFailed e, st)
    end.

Section Segment.
(** An [io.Reader]: a state and what a [Read] into the 1 MiB buffer
    returns and leaves. *)
Variable St : Type.
Variable readStep : St -> ReadResult * St.
Variable encode : list byte -> list byte.
(** [output.Write] in pass [k] of the loop; [Some e] is its error. *)
Variable writeOutput : nat -> option string.

(** The [for] loop of [compressSegment] in its pass [k], with [written]
    already sent to the output.  [None] is running out of [fuel]: the
    loop goes on for as long as the reader gives bytes. *)
Fixpoint segmentLoop (fuel k : nat) (st : St) (written : list byte)
  : option (result unit * list byte) :=
  match fuel with
  | O => None
  | S fuel' =>
      match readStep st with
      | (ReadFailed e, _) =>
          Some (Error ("failed to read input: " +:+ e), written)
      | (ReadBytes chunk, st') =>
          if Z.of_nat (length chunk) =? 0 then Some (Ok (), written)
          else
            match writeOutput k with
            | Some e => Some (Error ("failed to write output: " +:+ e), written)
            | None => segmentLoop fuel' (S k) st' (written ++ encode chunk)
            end
      end
  end.

(** [compressSegment]: the returned error and what was written. *)
Definition compressSegment (fuel : nat) (newEncoder : option string) (st : St)
  : option (result unit * list byte) :=
  match newEncoder with
  | Some e => Some (Error ("failed to create zstd encoder: " +:+ e), [])
  | None => segmentLoop fuel 0 st []
  end.

End Segment.

(** What goroutine [i] sends down its pipe when no call but the reads of
    the handle [readN] can fail: [compressSegment] on
    [io.LimitReader(partFile, end-start)] after [partFile.Seek(start, 0)],
    for a file of [fileSize] bytes. *)
Definition segmentOf (EncodeAll : Z -> list byte -> list byte)
    (readN : Z -> Z -> ReadResult) (fileSize compressionLevel numThreads : Z)
    (i : nat) : option (result unit * list byte) :=
  let range := partRange fileSize numThreads (Z.of_nat i) in
  compressSegment (Z * Z) (limitedRead readN)
    (EncodeAll compressionLevel) (fun _ => None)
    (S (Z.to_nat (range.2 - range.1))) None
    (range.1, Int64.sub range.2 range.1).

(** The same for a regular file with content [X]. *)
Definition segmentData (EncodeAll : Z -> list byte -> list byte) (X : list byte)
    (compressionLevel numThreads : Z) (i : nat)
  : option (result unit * list byte) :=
  segmentOf EncodeAll (fileReadN X) (Z.of_nat (length X)) compressionLevel
    numThreads i.

(** A handle answers like the regular file with content [X] whenever it
    is asked for bytes inside [range]. *)
Definition answersWithin (X : list byte) (range : Segment)
    (readN : Z -> Z -> ReadResult) : Prop :=
  forall pos m, range.1 <= pos -> 0 < m -> pos + m <= range.2 ->
    readN pos m = fileReadN X pos m.

(** What the last loop of [compressFileBlock] writes: the collected
    segments in index order. *)
Definition writtenOutput (compressedData : list (list byte)) : list byte :=
  concat compressedData.

End InMemory.

(** A reassembler whose destination cannot be created. *)
Definition deniedConcat : ConcatIO :=
  {| createDest := Some "permission denied"; copyPart := fun _ => None |}.

(** ** Vocabulary of the statements *)

(** Files in strictly ascending order of their index. *)
Definition ascending (a b : FileWithIndex) : Prop := Index a < Index b.

(** A file whose name carries its index. *)
Definition named (f : FileWithIndex) : Prop := parseIndex (Name f) = Ok (Index f).

Definition reparse (filename : string) : FileWithIndex :=
  {| Index := match parseIndex filename with Ok index => index | _ => 0 end;
     Name := filename |}.

(** A part, as the reassembler finds it: the file is not the destination,
    it holds the payload, and copying it does not fail. *)
Definition stored (cio : ConcatIO) (out : string) (fs : gmap string (list byte))
    (part : FileWithIndex * list byte) : Prop :=
  Name part.1 <> out /\ fs !! Name part.1 = Some part.2 /\
  copyPart cio (Name part.1) = None.

(** The part of segment [i] as the reassembler meets it. *)
Definition partFile (inputFile : string) (i : nat) : FileWithIndex :=
  {| Index := Z.of_nat i; Name := partName inputFile (Z.of_nat i) |}.

(** What a worker leaves for a segment of a regular file: frames of
    non-empty chunks that make up the slice. *)
Definition framed (encode : list byte -> list byte) (X : list byte)
    (seg : Segment) (payload : list byte) : Prop :=
  exists chunks, Forall (fun c => c <> []) chunks /\
    concat chunks = slice seg.1 seg.2 X /\
    payload = concat (encode <$> chunks).

(** The contract of [sort.Slice]: the slice is rearranged and, when
    [less] is a strict weak ordering, left in the order of [less]. *)
Definition sortContract
    (sortSlice : (FileWithIndex -> FileWithIndex -> bool) ->
                 list FileWithIndex -> list FileWithIndex) : Prop :=
  (forall less l, sortSlice less l ≡ₚ l) /\
  (forall less, strictWeakOrder less ->
     forall l, Sorted (sortedBy less) (sortSlice less l)).

(** A stand-in for [sort.Slice]: merge sort by the [less] function. *)
#[global] Instance sortedBy_dec less : RelDecision (sortedBy less).
Proof. intros a b. unfold sortedBy. apply _. Defined.

Definition mergeSortSlice (less : FileWithIndex -> FileWithIndex -> bool)
    (l : list FileWithIndex) : list FileWithIndex :=
  merge_sort (sortedBy less) l.

(** A stand-in codec that stores each chunk as it is. *)
Definition storeEncodeAll (level : Z) (chunk : list byte) : list byte := chunk.
Definition storeDecode (stream : list byte) : result (list byte) := Ok stream.

(** The planner's answer for an empty file in the two shapes of a plan
    without content: no segment, or one empty segment. *)
Definition none_or_single_empty (segs : list Segment) : Prop :=
  segs = [] \/ exists s, segs = [(s, s)].

(** ** Example inputs *)

(** A sparse file of [2^63 - 1] zero bytes, the largest size [os.Stat]
    can report. *)
Definition hugeFile : list byte := replicate (Z.to_nat Int64.max_int) x00.

Definition smallFile : list byte := [x01; x02; x03].

Definition smallFiles : gmap string (list byte) := {[ "in.bin" := smallFile ]}.

(** A handle whose reads fail. *)
Definition brokenIO : PartIO :=
  {| openInput := Opened (fun _ => ReadFailed "input/output error");
     createOutput := None;
     newEncoder := None;
     writeOutput := fun _ => None;
     tellInput := fun _ => None |}.

(** A handle on the file with content [X] that fails when it is asked
    for a byte outside [range]. *)
Definition guardedRead (X : list byte) (range : Segment) (pos m : Z)
  : ReadResult :=
  if (range.1 <=? pos) && (pos + m <=? range.2)
  then InMemory.fileReadN X pos m
  else ReadFailed "read outside the range".

(** Worker 1 cannot read; the others read [smallFile]. *)
Definition secondBroken (i : nat) : PartIO :=
  if decide (i = 1%nat) then brokenIO else fileIO smallFile.

(** * Properties *)

(** ** The planner on plannable sizes *)

Lemma wrap_in_range z : Int64.in_range z -> Int64.wrap z = z.
Proof.
  unfold Int64.in_range, Int64.min_int, Int64.max_int, Int64.wrap. intros Hz.
  rewrite Z.mod_small; lia.
Qed.

Lemma wrap_range z : Int64.in_range (Int64.wrap z).
Proof.
  unfold Int64.in_range, Int64.min_int, Int64.max_int, Int64.wrap.
  pose proof (Z.mod_pos_bound (z + 9223372036854775808) 18446744073709551616).
  lia.
Qed.

Lemma oneMB_val : oneMB = 1048576.
Proof. reflexivity. Qed.

Lemma maxPlannable_val : maxPlannable = 9223372036853727232.
Proof. reflexivity. Qed.

Lemma unitsOf_bounds F :
  0 <= F -> 0 <= unitsOf F /\ unitsOf F * oneMB - oneMB < F <= unitsOf F * oneMB.
Proof.
  intros HF. unfold unitsOf. rewrite oneMB_val.
  pose proof (Z.div_mod (F + 1048576 - 1) 1048576 ltac:(lia)) as Hdm.
  pose proof (Z.mod_pos_bound (F + 1048576 - 1) 1048576 ltac:(lia)) as Hm.
  split; [apply Z.div_pos; lia | lia].
Qed.


Lemma plan_step F q rem c n :
  0 <= F <= maxPlannable -> 0 <= q -> 0 <= rem -> 0 <= c -> 0 < n ->
  c + n * q + rem = unitsOf F ->
  let start := Z.min (c * oneMB) F in
  let end0 := Int64.add start (Int64.mul q oneMB) in
  let end1 := if 0 <? rem then Int64.add end0 oneMB else end0 in
  (if F <? end1 then F else end1)
  = Z.min ((c + q + (if 0 <? rem then 1 else 0)) * oneMB) F.
Proof.
  intros HF Hq Hrem Hc Hn HU.
  destruct (unitsOf_bounds F ltac:(lia)) as [HU0 HUb].
  rewrite maxPlannable_val in HF. rewrite oneMB_val in *.
  assert (q <= n * q) by nia.
  cbv zeta. unfold Int64.add, Int64.mul.
  rewrite (wrap_in_range (q * 1048576))
    by (unfold Int64.in_range, Int64.min_int, Int64.max_int; lia).
  rewrite (wrap_in_range (_ + q * 1048576))
    by (unfold Int64.in_range, Int64.min_int, Int64.max_int; lia).
  destruct (0 <? rem) eqn:Hr.
  - apply Z.ltb_lt in Hr.
    rewrite wrap_in_range
      by (unfold Int64.in_range, Int64.min_int, Int64.max_int; lia).
    destruct (F <? _) eqn:Hlt; [apply Z.ltb_lt in Hlt | apply Z.ltb_ge in Hlt]; lia.
  - apply Z.ltb_ge in Hr.
    destruct (F <? _) eqn:Hlt; [apply Z.ltb_lt in Hlt | apply Z.ltb_ge in Hlt]; lia.
Qed.

Lemma segments_loop_length n F q rem start :
  length (segments_loop n F q rem start) = n.
Proof.
  revert rem start. induction n as [|n IH]; intros rem start; simpl; [done|].
  by rewrite IH.
Qed.

Lemma segments_loop_contiguous n F q rem start :
  contiguous start (segments_loop n F q rem start).
Proof.
  revert rem start. induction n as [|n IH]; intros rem start; simpl; [done|].
  split; [done | apply IH].
Qed.

Lemma segments_loop_lookup n F q rem c i :
  0 <= F <= maxPlannable -> 0 <= q -> 0 <= rem <= Z.of_nat n -> 0 <= c ->
  c + Z.of_nat n * q + rem = unitsOf F ->
  (i < n)%nat ->
  segments_loop n F q rem (Z.min (c * oneMB) F) !! i =
    Some (Z.min ((c + unitsBefore q rem (Z.of_nat i)) * oneMB) F,
          Z.min ((c + unitsBefore q rem (Z.of_nat i + 1)) * oneMB) F).
Proof.
  intros HF Hq. revert rem c i.
  induction n as [|n IH]; intros rem c i Hrem Hc HU Hi; [lia|].
  cbn [segments_loop].
  rewrite (plan_step F q rem c (Z.of_nat (S n))) by lia.
  assert (Hsub : Int64.sub rem 1 = rem - 1).
  { apply wrap_in_range. destruct (unitsOf_bounds F ltac:(lia)).
    rewrite maxPlannable_val, oneMB_val in *.
    assert (0 <= Z.of_nat (S n) * q) by (apply Z.mul_nonneg_nonneg; lia).
    unfold Int64.in_range, Int64.min_int, Int64.max_int. lia. }
  rewrite Hsub. clear Hsub.
  destruct i as [|i]; cbn [lookup list_lookup].
  - replace (c + unitsBefore q rem (Z.of_nat 0)) with c
      by (unfold unitsBefore; lia).
    replace (c + unitsBefore q rem (Z.of_nat 0 + 1))
      with (c + q + (if 0 <? rem then 1 else 0)); [done|].
    unfold unitsBefore.
    destruct (0 <? rem) eqn:Hr;
      [apply Z.ltb_lt in Hr | apply Z.ltb_ge in Hr]; lia.
  - destruct (0 <? rem) eqn:Hr;
      [apply Z.ltb_lt in Hr | apply Z.ltb_ge in Hr]; cbv iota.
    + etrans; [apply (IH (rem - 1) (c + q + 1) i); lia|].
      replace (c + q + 1 + unitsBefore q (rem - 1) (Z.of_nat i))
        with (c + unitsBefore q rem (Z.of_nat (S i)))
        by (unfold unitsBefore; lia).
      replace (c + q + 1 + unitsBefore q (rem - 1) (Z.of_nat i + 1))
        with (c + unitsBefore q rem (Z.of_nat (S i) + 1))
        by (unfold unitsBefore; lia).
      done.
    + etrans; [apply (IH rem (c + q + 0) i); lia|].
      replace (c + q + 0 + unitsBefore q rem (Z.of_nat i))
        with (c + unitsBefore q rem (Z.of_nat (S i)))
        by (unfold unitsBefore; lia).
      replace (c + q + 0 + unitsBefore q rem (Z.of_nat i + 1))
        with (c + unitsBefore q rem (Z.of_nat (S i) + 1))
        by (unfold unitsBefore; lia).
      done.
Qed.

Lemma wrap_sub_wrap a b : Int64.wrap (Int64.wrap a - b) = Int64.wrap (a - b).
Proof.
  unfold Int64.wrap. f_equal.
  replace ((a + 9223372036854775808) mod 18446744073709551616
           - 9223372036854775808 - b + 9223372036854775808)
    with ((a + 9223372036854775808) mod 18446744073709551616 - b) by lia.
  rewrite Zminus_mod_idemp_l. f_equal. lia.
Qed.

Lemma roundUp_plannable F :
  0 <= F <= maxPlannable ->
  Int64.quot (Int64.sub (Int64.add F oneMB) 1) oneMB = unitsOf F.
Proof.
  intros HF. rewrite maxPlannable_val in HF.
  unfold Int64.sub, Int64.add. rewrite wrap_sub_wrap.
  rewrite (wrap_in_range (F + oneMB - 1))
    by (rewrite oneMB_val; unfold Int64.in_range, Int64.min_int, Int64.max_int; lia).
  unfold Int64.quot, unitsOf. rewrite oneMB_val.
  rewrite Z.quot_div_nonneg by lia.
  apply wrap_in_range.
  pose proof (Z.div_pos (F + 1048576 - 1) 1048576 ltac:(lia) ltac:(lia)).
  pose proof (Z.div_le_upper_bound (F + 1048576 - 1) 1048576 9223372036854775807
                ltac:(lia) ltac:(lia)).
  unfold Int64.in_range, Int64.min_int, Int64.max_int; lia.
Qed.

(** On plannable sizes the planner runs the loop on the exact quotient and
    remainder of the unit count. *)
Lemma divideFileIntoSegments_plannable F T :
  0 <= F <= maxPlannable -> 1 <= T ->
  divideFileIntoSegments F T =
    Ok (segments_loop (Z.to_nat T) F (unitsOf F / T) (unitsOf F mod T) 0).
Proof.
  intros HF HT. unfold divideFileIntoSegments.
  rewrite roundUp_plannable by done.
  destruct (T =? 0) eqn:HT0; [apply Z.eqb_eq in HT0; lia|].
  destruct (unitsOf_bounds F ltac:(lia)) as [HU0 HUb].
  rewrite maxPlannable_val, oneMB_val in *.
  unfold Int64.quot, Int64.rem.
  rewrite Z.quot_div_nonneg, Z.rem_mod_nonneg by lia.
  rewrite wrap_in_range; [done|].
  pose proof (Z.div_pos (unitsOf F) T ltac:(lia) ltac:(lia)).
  pose proof (Z.div_le_upper_bound (unitsOf F) T (unitsOf F) ltac:(lia) ltac:(nia)).
  unfold Int64.in_range, Int64.min_int, Int64.max_int; lia.
Qed.

(** Closed form of the plan: segment [i] runs from [C i] to [C (i+1)] MiB
    units, both clamped to the file size, where [C i] counts the units
    handed to the segments before [i]. *)
Lemma plan_lookup F T segs (i : nat) :
  0 <= F <= maxPlannable -> 1 <= T ->
  divideFileIntoSegments F T = Ok segs ->
  (Z.of_nat i < T) ->
  let C := unitsBefore (unitsOf F / T) (unitsOf F mod T) in
  segs !! i = Some (Z.min (C (Z.of_nat i) * oneMB) F,
                    Z.min (C (Z.of_nat i + 1) * oneMB) F).
Proof.
  intros HF HT Hplan Hi C.
  rewrite divideFileIntoSegments_plannable in Hplan by done.
  injection Hplan as <-.
  destruct (unitsOf_bounds F ltac:(lia)) as [HU0 HUb].
  pose proof (Z.mod_pos_bound (unitsOf F) T ltac:(lia)) as Hm.
  pose proof (Z.div_mod (unitsOf F) T ltac:(lia)) as Hdm.
  pose proof (Z.div_pos (unitsOf F) T ltac:(lia) ltac:(lia)) as Hq.
  pose proof (segments_loop_lookup (Z.to_nat T) F (unitsOf F / T)
                (unitsOf F mod T) 0 i HF Hq) as Hl.
  replace (0 * oneMB) with 0 in Hl by lia.
  replace (Z.min 0 F) with 0 in Hl by lia.
  rewrite Hl; [done|lia|lia| |lia].
  rewrite Z2Nat.id by lia. lia.
Qed.

Lemma plan_length F T segs :
  0 <= T -> divideFileIntoSegments F T = Ok segs -> Z.of_nat (length segs) = T.
Proof.
  unfold divideFileIntoSegments. intros HT.
  destruct (T =? 0); [done|]. intros [= <-].
  rewrite segments_loop_length. lia.
Qed.

Lemma plan_contiguous F T segs :
  divideFileIntoSegments F T = Ok segs -> contiguous 0 segs.
Proof.
  unfold divideFileIntoSegments.
  destruct (T =? 0); [done|]. intros [= <-].
  apply segments_loop_contiguous.
Qed.






Lemma last_end_cons a s e tl : last_end a ((s, e) :: tl) = last_end e tl.
Proof. unfold last_end. rewrite last_cons. destruct (last tl); reflexivity. Qed.

Lemma contiguous_start_le a segs :
  contiguous a segs -> Forall well_formed segs ->
  a <= last_end a segs /\ forall seg, seg ∈ segs -> a <= seg.1 /\ seg.2 <= last_end a segs.
Proof.
  revert a. induction segs as [|[s e] tl IH]; intros a Hc Hw.
  - split; [done|]. intros seg Hin. by apply elem_of_nil in Hin.
  - destruct Hc as [-> Hc]. apply Forall_cons in Hw as [Hse Hw].
    unfold well_formed in Hse; simpl in Hse.
    destruct (IH e Hc Hw) as [Hle Hall]. rewrite last_end_cons.
    split; [lia|]. intros seg [->|Hin]%elem_of_cons; simpl; [lia|].
    destruct (Hall seg Hin). lia.
Qed.

Lemma contiguous_disjoint a segs :
  contiguous a segs -> Forall well_formed segs -> disjoint_in_order segs.
Proof.
  revert a. induction segs as [|[s e] tl IH]; intros a Hc Hw i j si sj Hij Hi Hj.
  - done.
  - destruct Hc as [-> Hc]. apply Forall_cons in Hw as [Hse Hw].
    destruct j as [|j]; [lia|]. simpl in Hj.
    destruct i as [|i]; simpl in Hi.
    + injection Hi as <-. simpl.
      destruct (contiguous_start_le e tl Hc Hw) as [_ Hall].
      apply Hall. by eapply list_elem_of_lookup_2.
    + eapply (IH e Hc Hw i j); [lia|done..].
Qed.

Lemma contiguous_covers a segs x :
  contiguous a segs -> Forall well_formed segs ->
  covers segs x <-> a <= x < last_end a segs.
Proof.
  revert a. induction segs as [|[s e] tl IH]; intros a Hc Hw.
  - unfold covers, last_end; simpl. split; [|lia].
    intros (s & e & Hin & _). by apply elem_of_nil in Hin.
  - destruct Hc as [-> Hc]. apply Forall_cons in Hw as [Hse Hw].
    unfold well_formed in Hse; simpl in Hse.
    rewrite last_end_cons. specialize (IH e Hc Hw).
    destruct (contiguous_start_le e tl Hc Hw) as [Hle _].
    split.
    + intros (s' & e' & [[= -> ->]|Hin]%elem_of_cons & Hx); [lia|].
      assert (covers tl x) as Hcov by (exists s', e'; done).
      apply IH in Hcov. lia.
    + intros Hx. destruct (Z.lt_ge_cases x e) as [Hlt|Hge].
      * exists a, e. split; [left|lia].
      * destruct (proj2 IH ltac:(lia)) as (s' & e' & Hin & Hx').
        exists s', e'. split; [by right|done].
Qed.

Section Plannable.
Variables F T : Z.
Hypothesis HF : 0 <= F <= maxPlannable.
Hypothesis HT : 1 <= T.

Let q := unitsOf F / T.
Let r := unitsOf F mod T.
Let C := unitsBefore q r.

Local Lemma qr_facts : 0 <= q /\ 0 <= r < T /\ T * q + r = unitsOf F.
Proof.
  destruct (unitsOf_bounds F ltac:(lia)) as [HU0 _].
  pose proof (Z.mod_pos_bound (unitsOf F) T ltac:(lia)).
  pose proof (Z.div_mod (unitsOf F) T ltac:(lia)).
  pose proof (Z.div_pos (unitsOf F) T ltac:(lia) ltac:(lia)).
  subst q r. lia.
Qed.

Local Lemma C_step i :
  0 <= i -> C (i + 1) = C i + q + (if i <? r then 1 else 0).
Proof.
  intros Hi. subst C; unfold unitsBefore.
  destruct (i <? r) eqn:Hr; [apply Z.ltb_lt in Hr|apply Z.ltb_ge in Hr]; lia.
Qed.

Local Lemma C_bounds i : 0 <= i < T -> 0 <= C i /\ C (i + 1) <= unitsOf F.
Proof.
  intros Hi. destruct qr_facts as (Hq & Hr & HU).
  subst C; unfold unitsBefore. split.
  - assert (0 <= i * q) by (apply Z.mul_nonneg_nonneg; lia). lia.
  - assert ((i + 1) * q <= T * q) by (apply Z.mul_le_mono_nonneg_r; lia). lia.
Qed.

Local Lemma C_rest i :
  0 <= i < T -> (T - (i + 1)) * q <= unitsOf F - C (i + 1).
Proof.
  intros Hi. destruct qr_facts as (Hq & Hr & HU).
  subst C; unfold unitsBefore. lia.
Qed.

Lemma plan_planned segs (i : nat) seg :
  divideFileIntoSegments F T = Ok segs -> segs !! i = Some seg ->
  planned F seg.
Proof.
  intros Hplan Hseg.
  assert (Z.of_nat i < T) as Hi.
  { apply lookup_lt_Some in Hseg.
    pose proof (plan_length F T segs ltac:(lia) Hplan). lia. }
  rewrite (plan_lookup F T segs i HF HT Hplan Hi) in Hseg.
  injection Hseg as <-. fold q r C.
  destruct (unitsOf_bounds F ltac:(lia)) as [HU0 HUb].
  destruct qr_facts as (Hq & Hr & HU).
  destruct (C_bounds (Z.of_nat i) ltac:(lia)) as [HC0 HC1].
  pose proof (C_step (Z.of_nat i) ltac:(lia)) as Hstep.
  assert (C (Z.of_nat i) <= C (Z.of_nat i + 1)) as Hmono
    by (destruct (Z.of_nat i <? r); lia).
  unfold planned, within, aligned; simpl. rewrite oneMB_val in *.
  split; [lia|]. split; [|split].
  - destruct (Z.min_spec (C (Z.of_nat i) * 1048576) F) as [[_ ->]|[_ ->]];
      [left; by apply Z.divide_factor_r | by right].
  - destruct (Z.min_spec (C (Z.of_nat i + 1) * 1048576) F) as [[_ ->]|[_ ->]];
      [left; by apply Z.divide_factor_r | by right].
  - intros Heq.
    destruct (Z.eq_dec (C (Z.of_nat i + 1)) (C (Z.of_nat i))) as [Hsame|Hne]; [|lia].
    assert (q = 0 /\ r <= Z.of_nat i) as [Hq0 Hri]
      by (destruct (Z.of_nat i <? r) eqn:E;
          [apply Z.ltb_lt in E|apply Z.ltb_ge in E]; lia).
    assert (C (Z.of_nat i) = unitsOf F)
      by (subst C; unfold unitsBefore; lia).
    lia.
Qed.

Lemma plan_last_end segs :
  divideFileIntoSegments F T = Ok segs -> last_end 0 segs = F.
Proof.
  intros Hplan.
  pose proof (plan_length F T segs ltac:(lia) Hplan) as Hlen.
  pose proof (plan_lookup F T segs (Z.to_nat (T - 1)) HF HT Hplan ltac:(lia)) as Hl.
  cbv zeta in Hl. fold q r C in Hl.
  unfold last_end. rewrite last_lookup.
  replace (Nat.pred (length segs)) with (Z.to_nat (T - 1)) by lia.
  rewrite Hl. simpl.
  destruct (unitsOf_bounds F ltac:(lia)) as [HU0 HUb].
  destruct qr_facts as (Hq & Hr & HU).
  rewrite Z2Nat.id by lia. replace (T - 1 + 1) with T by lia.
  replace (C T) with (unitsOf F); [lia|].
  subst C; unfold unitsBefore. lia.
Qed.

(** The partition invariant on plannable sizes. *)
Lemma plan_partitions segs :
  divideFileIntoSegments F T = Ok segs -> partitions F segs.
Proof.
  intros Hplan.
  pose proof (plan_contiguous F T segs Hplan) as Hc.
  assert (Forall well_formed segs) as Hw.
  { apply Forall_lookup. intros i seg Hseg.
    destruct (plan_planned segs i seg Hplan Hseg) as [(_ & ? & _) _].
    done. }
  pose proof (plan_last_end segs Hplan) as Hlast.
  split; [done|]. split; [done|]. split; [done|].
  split; [by eapply contiguous_disjoint|].
  intros x. by rewrite (contiguous_covers 0 segs x Hc Hw), Hlast.
Qed.

(** Away from the last segment, and when every worker gets at least one
    unit, ends are whole MiB. *)
Lemma plan_inner_ends_aligned segs (i : nat) seg :
  T <= unitsOf F ->
  divideFileIntoSegments F T = Ok segs -> segs !! i = Some seg ->
  Z.of_nat i < T - 1 -> (oneMB | seg.2).
Proof.
  intros HTU Hplan Hseg Hi.
  rewrite (plan_lookup F T segs i HF HT Hplan ltac:(lia)) in Hseg.
  injection Hseg as <-. fold q r C. simpl.
  destruct (unitsOf_bounds F ltac:(lia)) as [HU0 HUb].
  destruct qr_facts as (Hq & Hr & HU).
  pose proof (C_rest (Z.of_nat i) ltac:(lia)) as Hrest.
  assert (1 <= q).
  { destruct (Z.le_gt_cases 1 q); [done|].
    assert (q = 0) by lia. subst q. lia. }
  assert (1 * q <= (T - (Z.of_nat i + 1)) * q)
    by (apply Z.mul_le_mono_nonneg_r; lia).
  rewrite oneMB_val in *.
  rewrite Z.min_l by lia. by apply Z.divide_factor_r.
Qed.
End Plannable.

(** ** The planner beyond the plannable sizes *)

(** Wrap-around keeps whole numbers of MiB whole. *)
Lemma wrap_divide z : (oneMB | z) -> (oneMB | Int64.wrap z).
Proof.
  intros [a ->]. unfold Int64.wrap. rewrite oneMB_val.
  rewrite (Z.mod_eq _ 18446744073709551616) by lia.
  set (k := (a * 1048576 + 9223372036854775808) / 18446744073709551616).
  exists (a - 17592186044416 * k). lia.
Qed.

(** The largest whole number of MiB an [int64] holds is [maxPlannable]. *)
Lemma aligned_in_range z :
  (oneMB | z) -> Int64.in_range z -> z <= maxPlannable.
Proof.
  intros [a ->]. rewrite maxPlannable_val, oneMB_val.
  unfold Int64.in_range, Int64.min_int, Int64.max_int. lia.
Qed.

(** Above [maxPlannable] no end is clamped to the file size: every end is
    a wrapped sum of whole MiB. *)
Lemma segments_loop_beyond n F q rem start (i : nat) seg :
  maxPlannable < F -> (oneMB | start) ->
  segments_loop n F q rem start !! i = Some seg -> (oneMB | seg.2).
Proof.
  intros HF. revert rem start i.
  induction n as [|n IH]; intros rem start i Hstart; [done|].
  cbn [segments_loop].
  set (end0 := Int64.add start (Int64.mul q oneMB)).
  set (end1 := if 0 <? rem then Int64.add end0 oneMB else end0).
  assert (oneMB | end0) as H0.
  { apply wrap_divide, Z.divide_add_r; [done|].
    apply wrap_divide, Z.divide_factor_r. }
  assert ((oneMB | end1) /\ Int64.in_range end1) as [H1 Hr].
  { subst end1. destruct (0 <? rem).
    - split; [|apply wrap_range]. apply wrap_divide, Z.divide_add_r; [done|].
      apply Z.divide_refl.
    - split; [done|apply wrap_range]. }
  pose proof (aligned_in_range end1 H1 Hr).
  rewrite (proj2 (Z.ltb_ge F end1)) by lia.
  destruct i as [|i]; [by intros [= <-]|]. cbn [lookup list_lookup].
  by apply IH.
Qed.

(** ** The worker *)

Section WorkerLoop.
Variable encode : list byte -> list byte.
Variable io : PartIO.
Variable read : Z -> ReadResult.
Variable endOffset : Z.

Lemma iteration_continue pos w pos' w' :
  iteration encode io read endOffset pos w = Continue pos' w' ->
  pos < pos' < endOffset.
Proof.
  unfold iteration. destruct (read pos) as [chunk|e]; [|done].
  destruct (Z.of_nat (length chunk) =? 0) eqn:Hn; [done|].
  apply Z.eqb_neq in Hn.
  destruct (writeOutput io pos); [done|].
  destruct (tellInput io pos); [done|].
  destruct (_ =? endOffset) eqn:Heq; [done|]. apply Z.eqb_neq in Heq.
  destruct (endOffset <? _) eqn:Hlt; [done|]. apply Z.ltb_ge in Hlt.
  intros [= <- <-]. lia.
Qed.

Lemma iteration_zero_read pos w :
  read pos = ReadBytes [] ->
  iteration encode io read endOffset pos w = Done (Ok ()) w.
Proof. unfold iteration. by intros ->. Qed.

(** The loop ends: with more fuel than bytes left before [endOffset] it
    returns. *)
Lemma readLoop_returns fuel pos w :
  (Z.to_nat (endOffset - pos) < fuel)%nat ->
  exists r w', readLoop fuel encode io read endOffset pos w = Some (r, w').
Proof.
  revert pos w. induction fuel as [|fuel IH]; intros pos w Hfuel; [lia|].
  cbn [readLoop].
  destruct (iteration encode io read endOffset pos w) as [pos' w'|r w'] eqn:Hit.
  - apply iteration_continue in Hit. apply IH. lia.
  - by exists r, w'.
Qed.

Lemma reaches_bounds k pos0 w0 pos w :
  reaches k encode io read endOffset pos0 w0 pos w ->
  pos0 + Z.of_nat k <= pos /\ (k <> 0%nat -> pos < endOffset).
Proof.
  revert pos0 w0. induction k as [|k IH]; intros pos0 w0; cbn [reaches].
  - intros [-> ->]. lia.
  - destruct (iteration encode io read endOffset pos0 w0) as [pos1 w1|] eqn:Hit;
      [|done].
    apply iteration_continue in Hit. intros Hr.
    destruct (IH _ _ Hr) as [Hle Hlt]. split; [lia|]. intros _.
    destruct k; [|by apply Hlt].
    cbn in Hr. destruct Hr as [-> _]. lia.
Qed.

(** Running the loop from the start is running it from any state it
    reaches. *)
Lemma readLoop_from_reached k fuel pos0 w0 pos w :
  reaches k encode io read endOffset pos0 w0 pos w ->
  readLoop (k + fuel) encode io read endOffset pos0 w0
  = readLoop fuel encode io read endOffset pos w.
Proof.
  revert pos0 w0. induction k as [|k IH]; intros pos0 w0; cbn [reaches].
  - by intros [-> ->].
  - destruct (iteration encode io read endOffset pos0 w0) as [pos1 w1|] eqn:Hit;
      [|done].
    intros Hr. cbn [Nat.add readLoop]. rewrite Hit. by apply IH.
Qed.
End WorkerLoop.

Section WorkerFacts.
Variable EncodeAll : Z -> list byte -> list byte.

(** [compressPart] always returns. *)
Lemma compressPart_returns io inputFile idx seg level :
  exists r part, compressPart EncodeAll io inputFile idx seg level = Some (r, part).
Proof.
  unfold compressPart.
  destruct (openInput io) as [read|e]; [|by eexists _, _].
  destruct (createOutput io); [by eexists _, _|].
  destruct (newEncoder io); [by eexists _, _|].
  destruct (readLoop_returns (EncodeAll level) io read seg.2
              (S (Z.to_nat (seg.2 - seekStart seg.1))) (seekStart seg.1) [])
    as [r [w Hrun]]; [lia|].
  rewrite Hrun. destruct r; by eexists _, _.
Qed.

End WorkerFacts.

Section FileWorker.
Variable EncodeAll : Z -> list byte -> list byte.
Variable X : list byte.
Let F := Z.of_nat (length X).

Lemma fileRead_length pos :
  0 <= pos <= F ->
  exists chunk, fileRead X pos = ReadBytes chunk /\
    Z.of_nat (length chunk) = Z.min oneMB (F - pos) /\
    chunk = slice pos (pos + Z.min oneMB (F - pos)) X.
Proof.
  intros Hpos. unfold fileRead. eexists; split; [done|].
  subst F. rewrite oneMB_val in *. split.
  - rewrite length_take, length_drop. lia.
  - unfold slice.
    replace (pos + Z.min 1048576 (Z.of_nat (length X) - pos) - pos)
      with (Z.min 1048576 (Z.of_nat (length X) - pos)) by lia.
    destruct (Z.min_spec 1048576 (Z.of_nat (length X) - pos)) as [[? ->]|[? ->]];
      [done|].
    rewrite !take_ge; [done|rewrite length_drop; lia..].
Qed.

Lemma slice_split a b c :
  0 <= a <= b -> b <= c -> slice a b X ++ slice b c X = slice a c X.
Proof.
  intros Hab Hbc. unfold slice.
  replace (Z.to_nat (c - a)) with (Z.to_nat (b - a) + Z.to_nat (c - b))%nat by lia.
  rewrite <-take_take_drop, drop_drop. do 3 f_equal. lia.
Qed.

Lemma slice_empty a b : b <= a -> slice a b X = [].
Proof. intros Hba. unfold slice. by replace (Z.to_nat (b - a)) with 0%nat by lia. Qed.

Lemma slice_past_end a b : F <= a -> slice a b X = [].
Proof.
  intros Ha. unfold slice. rewrite drop_ge; [by rewrite take_nil|subst F; lia].
Qed.

(** On a regular file whose size is the one the planner saw, the loop
    over a planned range compresses exactly the range, chunk by chunk,
    and leaves by [break]. *)
Lemma readLoop_file level e fuel pos w :
  0 <= pos <= e -> e <= F -> aligned F e -> aligned F pos ->
  (pos = e -> pos = F) ->
  (Z.to_nat (e - pos) < fuel)%nat ->
  exists chunks, Forall (fun c => c <> []) chunks /\
    concat chunks = slice pos e X /\
    readLoop fuel (EncodeAll level) (fileIO X) (fileRead X) e pos w
    = Some (Ok (), w ++ concat (EncodeAll level <$> chunks)).
Proof.
  revert pos w. induction fuel as [|fuel IH]; intros pos w Hpos He Hae Hap Hemp Hfuel;
    [lia|].
  cbn [readLoop]. unfold iteration.
  destruct (fileRead_length pos ltac:(lia)) as [chunk [Hrd [Hlen Hchunk]]].
  rewrite Hrd.
  rewrite Hlen. cbn [fileIO writeOutput tellInput].
  destruct (Z.eq_dec pos F) as [HposF|HposF].
  - (* at the end of the file: zero bytes *)
    replace (Z.min oneMB (F - pos)) with 0 by (rewrite oneMB_val; lia).
    cbn [Z.eqb]. exists []. split; [constructor|].
    split; [by rewrite slice_past_end by lia|].
    by rewrite fmap_nil, concat_nil, app_nil_r.
  - assert (oneMB | pos) as [a Ha] by (destruct Hap; done).
    assert (pos < e) by (destruct (Z.eq_dec pos e); [tauto|lia]).
    assert (pos + Z.min oneMB (F - pos) <= e) as Hcur.
    { destruct Hae as [[b Hb] | ->]; rewrite oneMB_val in *; lia. }
    assert (0 < Z.min oneMB (F - pos)) as Hn by (rewrite oneMB_val; lia).
    destruct (Z.min oneMB (F - pos) =? 0) eqn:Hz;
      [apply Z.eqb_eq in Hz; lia|].
    assert (chunk <> []) as Hne.
    { intros ->. cbn in Hlen. lia. }
    destruct (pos + Z.min oneMB (F - pos) =? e) eqn:Heq.
    + apply Z.eqb_eq in Heq. exists [chunk].
      split; [by constructor|]. split.
      * cbn. rewrite app_nil_r, Hchunk. by rewrite Heq.
      * cbn. by rewrite app_nil_r.
    + apply Z.eqb_neq in Heq.
      destruct (e <? pos + Z.min oneMB (F - pos)) eqn:Hlt;
        [apply Z.ltb_lt in Hlt; lia|].
      destruct (IH (pos + Z.min oneMB (F - pos)) (w ++ EncodeAll level chunk))
        as (chunks & Hall & Hcat & Hrun).
      * lia.
      * done.
      * done.
      * unfold aligned. rewrite oneMB_val in *.
        destruct (Z.min_spec 1048576 (F - pos)) as [[? ->]|[? ->]];
          [left; exists (a + 1); lia | right; lia].
      * lia.
      * lia.
      * exists (chunk :: chunks). split; [by constructor|]. split.
        -- cbn. rewrite Hcat, Hchunk. apply slice_split; lia.
        -- rewrite Hrun. cbn. by rewrite app_assoc.
Qed.

(** The worker on a planned range of a regular file. *)
Lemma compressPart_file inputFile idx seg level :
  planned F seg ->
  exists chunks, Forall (fun c => c <> []) chunks /\
    concat chunks = slice seg.1 seg.2 X /\
    compressPart EncodeAll (fileIO X) inputFile idx seg level
    = Some (Ok (partName inputFile idx),
            Some (concat (EncodeAll level <$> chunks))).
Proof.
  intros ((Hs & Hse & He) & Has & Hae & Hemp).
  unfold compressPart. cbn [fileIO openInput createOutput newEncoder].
  assert (seekStart seg.1 = seg.1) as ->.
  { unfold seekStart. destruct (seg.1 <? 0) eqn:E; [apply Z.ltb_lt in E; lia|done]. }
  destruct (readLoop_file level seg.2 (S (Z.to_nat (seg.2 - seg.1))) seg.1 [])
    as [chunks [Hall [Hcat Hrun]]]; [lia|done|done|done|done|lia|].
  rewrite Hrun. by exists chunks.
Qed.

(** The cursor of a worker on a planned range never passes the end of
    the range. *)
Lemma file_cursor_bounded level seg k pos w :
  planned F seg ->
  reaches k (EncodeAll level) (fileIO X) (fileRead X) seg.2 (seekStart seg.1) []
    pos w ->
  pos <= seg.2.
Proof.
  intros ((Hs & Hse & He) & _) Hreach.
  destruct (reaches_bounds _ _ _ _ _ _ _ _ _ Hreach) as [Hle Hlt].
  destruct k; [|specialize (Hlt ltac:(done)); lia].
  cbn in Hreach. destruct Hreach as [-> _].
  unfold seekStart. destruct (seg.1 <? 0) eqn:E; [apply Z.ltb_lt in E; lia|done].
Qed.
End FileWorker.

(** ** File names *)

Lemma digitChar_code d : 0 <= d <= 9 -> nat_of_ascii (digitChar d) = Z.to_nat (48 + d).
Proof.
  intros Hd. unfold digitChar. apply nat_ascii_embedding. lia.
Qed.

Lemma digitChar_isDigit d : 0 <= d <= 9 -> isDigit (digitChar d) = true.
Proof.
  intros Hd. unfold isDigit. rewrite digitChar_code by done.
  apply andb_true_intro. split; apply Nat.leb_le; lia.
Qed.

Lemma isDigit_neq c c' : isDigit c = true -> isDigit c' = false -> Ascii.eqb c c' = false.
Proof.
  intros Hc Hc'. destruct (Ascii.eqb c c') eqn:E; [|done].
  apply Ascii.eqb_eq in E. congruence.
Qed.

Lemma formatDigits_allDigits fuel n acc :
  0 <= n -> allDigits acc = true -> allDigits (formatDigits fuel n acc) = true.
Proof.
  revert n acc. induction fuel as [|fuel IH]; intros n acc Hn Hacc; cbn [formatDigits];
    [done|].
  assert (allDigits (String (digitChar (n mod 10)) acc) = true) as Hacc'.
  { cbn [allDigits]. rewrite digitChar_isDigit, Hacc; [done|].
    pose proof (Z.mod_pos_bound n 10 ltac:(lia)). lia. }
  destruct (n <? 10); [done|].
  apply IH; [apply Z.div_pos; lia|done].
Qed.

Lemma formatDigits_nonempty fuel n acc :
  (0 < fuel)%nat -> formatDigits fuel n acc <> EmptyString.
Proof.
  revert n acc. induction fuel as [|fuel IH]; intros n acc Hf; [lia|].
  cbn [formatDigits]. destruct (n <? 10); [done|].
  destruct fuel; [done|]. apply IH. lia.
Qed.

Lemma parseDigits_formatDigits fuel n :
  0 <= n < 10 ^ Z.of_nat fuel ->
  exists p, forall acc a,
    parseDigits (formatDigits fuel n acc) a = parseDigits acc (a * p + n).
Proof.
  revert n. induction fuel as [|fuel IH]; intros n Hn.
  { cbn in Hn. exists 1. intros acc a. cbn. f_equal. lia. }
  cbn [formatDigits].
  pose proof (Z.mod_pos_bound n 10 ltac:(lia)) as Hm.
  pose proof (Z.div_mod n 10 ltac:(lia)) as Hdm.
  assert (forall acc a, parseDigits (String (digitChar (n mod 10)) acc) a
                        = parseDigits acc (a * 10 + n mod 10)) as Hone.
  { intros acc a. cbn [parseDigits]. rewrite digitChar_code by lia.
    replace (Z.of_nat (Z.to_nat (48 + n mod 10)) - 48) with (n mod 10) by lia.
    destruct (0 <=? n mod 10) eqn:E1; [|apply Z.leb_gt in E1; lia].
    destruct (n mod 10 <=? 9) eqn:E2; [|apply Z.leb_gt in E2; lia].
    done. }
  destruct (n <? 10) eqn:Hlt.
  - apply Z.ltb_lt in Hlt. exists 10. intros acc a. rewrite Hone.
    f_equal. rewrite Z.mod_small by lia. done.
  - apply Z.ltb_ge in Hlt.
    destruct (IH (n / 10)) as [p Hp].
    { split; [apply Z.div_pos; lia|].
      apply Z.div_lt_upper_bound; [lia|].
      rewrite Nat2Z.inj_succ, Z.pow_succ_r in Hn by lia. lia. }
    exists (10 * p). intros acc a. rewrite Hp, Hone. f_equal. lia.
Qed.

Lemma Itoa_nonneg n : 0 <= n -> Itoa n = formatDigits 20 n "".
Proof.
  intros Hn. unfold Itoa. destruct (n <? 0) eqn:E; [apply Z.ltb_lt in E; lia|done].
Qed.

Lemma Itoa_allDigits n : 0 <= n -> allDigits (Itoa n) = true.
Proof. intros Hn. rewrite Itoa_nonneg by done. by apply formatDigits_allDigits. Qed.

(** [Atoi] reads back what [%d] prints for an index. *)
Lemma Atoi_Itoa n : 0 <= n <= Int64.max_int -> Atoi (Itoa n) = Some n.
Proof.
  intros Hn. pose proof (Itoa_allDigits n ltac:(lia)) as Hall.
  rewrite Itoa_nonneg in * by lia.
  pose proof (formatDigits_nonempty 20 n "" ltac:(lia)) as Hne.
  destruct (parseDigits_formatDigits 20 n) as [p Hp].
  { unfold Int64.max_int in Hn. split; [lia|].
    change (10 ^ Z.of_nat 20) with 100000000000000000000. lia. }
  specialize (Hp "" 0). cbn [parseDigits] in Hp.
  replace (0 * p + n) with n in Hp by lia.
  destruct (formatDigits 20 n "") as [|c r] eqn:Hfmt; [done|].
  cbn [allDigits] in Hall. apply andb_prop in Hall as [Hc _].
  unfold Atoi.
  rewrite (isDigit_neq c "-"), (isDigit_neq c "+") by done.
  cbn [orb]. rewrite Hp.
  destruct (Int64.min_int <=? n) eqn:E1;
    [|apply Z.leb_gt in E1; unfold Int64.min_int in E1; lia].
  destruct (n <=? Int64.max_int) eqn:E2; [done|apply Z.leb_gt in E2; lia].
Qed.

Lemma hasChar_app c s1 s2 : hasChar c (s1 +:+ s2) = hasChar c s1 || hasChar c s2.
Proof.
  induction s1 as [|c' s1 IH]; simpl; [done|].
  destruct (Ascii.eqb c' c); [done|apply IH].
Qed.

Lemma allDigits_hasChar c s :
  allDigits s = true -> isDigit c = false -> hasChar c s = false.
Proof.
  intros Hs Hc. induction s as [|c' s IH]; cbn [hasChar]; [done|].
  cbn [allDigits] in Hs. apply andb_prop in Hs as [Hc' Hs].
  rewrite (isDigit_neq c' c) by done. by apply IH.
Qed.

Lemma splitFirst_app sep d rest :
  hasChar sep d = false ->
  splitFirst sep (d +:+ String sep rest) = Some (d, rest).
Proof.
  induction d as [|c d IH]; simpl.
  - intros _. by rewrite Ascii.eqb_refl.
  - destruct (Ascii.eqb c sep); [done|]. intros Hd. by rewrite IH.
Qed.

Lemma stripTrailingSlashes_noslash s :
  hasChar "/" s = false -> stripTrailingSlashes s = s.
Proof.
  induction s as [|c s IH]; cbn [hasChar stripTrailingSlashes]; [done|].
  destruct (Ascii.eqb c "/") eqn:E; [done|]. intros Hs. rewrite IH by done.
  by destruct s.
Qed.

Lemma afterLastSlash_noslash s : hasChar "/" s = false -> afterLastSlash s = s.
Proof.
  destruct s as [|c s]; cbn [hasChar afterLastSlash]; [done|].
  destruct (Ascii.eqb c "/") eqn:E; [done|]. by intros ->.
Qed.

Lemma Base_noslash s : s <> EmptyString -> hasChar "/" s = false -> Base s = s.
Proof.
  intros Hne Hs. unfold Base.
  rewrite stripTrailingSlashes_noslash, afterLastSlash_noslash by done.
  by destruct s.
Qed.

Lemma partName_noslash inputFile idx :
  0 <= idx -> hasChar "/" (Base inputFile) = false ->
  hasChar "/" (partName inputFile idx) = false.
Proof.
  intros Hidx Hbase. unfold partName.
  rewrite !hasChar_app, Hbase.
  by rewrite (allDigits_hasChar "/" (Itoa idx) (Itoa_allDigits idx Hidx) eq_refl).
Qed.

Lemma partName_nonempty inputFile idx : 0 <= idx -> partName inputFile idx <> EmptyString.
Proof.
  intros Hidx. unfold partName. rewrite Itoa_nonneg by done.
  pose proof (formatDigits_nonempty 20 idx "" ltac:(lia)).
  by destruct (formatDigits 20 idx "").
Qed.

(** The reassembler recovers from a part file's name the index of the
    segment the worker was given. *)
Lemma parseIndex_partName inputFile idx :
  0 <= idx <= Int64.max_int -> hasChar "/" (Base inputFile) = false ->
  parseIndex (partName inputFile idx) = Ok idx.
Proof.
  intros Hidx Hbase. unfold parseIndex.
  rewrite Base_noslash;
    [|apply partName_nonempty; lia|apply partName_noslash; [lia|done]].
  unfold partName.
  change (Itoa idx +:+ "-" +:+ ?r) with (Itoa idx +:+ String "-" r).
  rewrite splitFirst_app
    by (apply allDigits_hasChar; [apply Itoa_allDigits; lia|done]).
  by rewrite Atoi_Itoa.
Qed.

Lemma partName_inj inputFile i j :
  0 <= i <= Int64.max_int -> 0 <= j <= Int64.max_int ->
  hasChar "/" (Base inputFile) = false ->
  partName inputFile i = partName inputFile j -> i = j.
Proof.
  intros Hi Hj Hbase Heq.
  pose proof (parseIndex_partName inputFile i Hi Hbase) as H1.
  pose proof (parseIndex_partName inputFile j Hj Hbase) as H2.
  rewrite Heq in H1. congruence.
Qed.

(** ** The reassembler *)

Lemma reparse_named f : named f -> reparse (Name f) = f.
Proof. unfold named, reparse. intros ->. by destruct f. Qed.

Lemma parseAll_named (fwis : list FileWithIndex) :
  Forall named fwis -> parseAll (Name <$> fwis) = Ok fwis.
Proof.
  induction 1 as [|f fwis Hf _ IH]; cbn [fmap list_fmap parseAll]; [done|].
  rewrite Hf. cbn [fmap list_fmap] in IH. rewrite IH. by destruct f.
Qed.

Lemma parseAll_reparse (names : list string) :
  Forall (fun n => named (reparse n)) names -> parseAll names = Ok (reparse <$> names).
Proof.
  induction 1 as [|n names Hn _ IH]; cbn [fmap list_fmap parseAll]; [done|].
  unfold named in Hn. cbn [reparse Name Index] in Hn.
  cbn [fmap list_fmap] in IH. rewrite IH.
  destruct (parseIndex n) as [index|e|m] eqn:E; [|done..].
  do 2 f_equal. unfold reparse. by rewrite E.
Qed.

(** The names may come in any order: parsing gives the same files up to
    the order. *)
Lemma parseAll_Permutation (names : list string) (fwis : list FileWithIndex) :
  Forall named fwis -> names ≡ₚ Name <$> fwis ->
  exists parsed, parseAll names = Ok parsed /\ parsed ≡ₚ fwis.
Proof.
  intros Hnamed Hperm. exists (reparse <$> names). split.
  - apply parseAll_reparse. rewrite Hperm. apply Forall_fmap.
    eapply Forall_impl; [done|]. intros f Hf. cbn. by rewrite reparse_named.
  - rewrite Hperm, <-list_fmap_compose.
    rewrite (Forall_fmap_ext_1 (reparse ∘ Name) id); [by rewrite list_fmap_id|].
    eapply Forall_impl; [done|]. intros f Hf. cbn. by apply reparse_named.
Qed.

Lemma ascending_same_index (fwis : list FileWithIndex) x1 x2 :
  StronglySorted ascending fwis -> x1 ∈ fwis -> x2 ∈ fwis ->
  Index x1 = Index x2 -> x1 = x2.
Proof.
  induction 1 as [|f fwis _ IH Hf]; intros H1 H2 Heq.
  - by apply elem_of_nil in H1.
  - rewrite Forall_forall in Hf. unfold ascending in Hf.
    apply elem_of_cons in H1 as [->|H1], H2 as [->|H2].
    + done.
    + specialize (Hf _ H2). lia.
    + specialize (Hf _ H1). lia.
    + by apply IH.
Qed.

(** What [sort.Slice] leaves with [lessIndex]: indices that do not
    decrease. *)
Lemma sortedBy_lessIndex a b : sortedBy lessIndex a b <-> notAfter a b.
Proof. unfold sortedBy, lessIndex, notAfter. apply Z.ltb_ge. Qed.

Lemma lessIndex_strictWeakOrder : strictWeakOrder lessIndex.
Proof.
  unfold strictWeakOrder, lessIndex. split; [|split].
  - intros a. apply Z.ltb_irrefl.
  - intros a b c. rewrite !Z.ltb_lt. lia.
  - intros a b c. rewrite !Z.ltb_ge. lia.
Qed.

(** The contract of [sort.Slice] at the [less] function of the
    reassembler. *)
Lemma sortContract_lessIndex sortSlice :
  sortContract sortSlice ->
  (forall l, sortSlice lessIndex l ≡ₚ l) /\
  (forall l, Sorted (sortedBy lessIndex) (sortSlice lessIndex l)).
Proof.
  intros [HP HS]. split; [apply HP|]. apply HS, lessIndex_strictWeakOrder.
Qed.

Lemma sortedBy_total less : strictWeakOrder less -> Total (sortedBy less).
Proof.
  intros (Hirr & Htrans & _) a b. unfold sortedBy.
  destruct (less b a) eqn:Hba; [|by left]. right.
  destruct (less a b) eqn:Hab; [|done].
  pose proof (Htrans a b a Hab Hba). pose proof (Hirr a). congruence.
Qed.

Lemma mergeSortSlice_contract : sortContract mergeSortSlice.
Proof.
  split.
  - intros less l. apply merge_sort_Permutation.
  - intros less Hless l.
    apply (@Sorted_merge_sort _ (sortedBy less) _ (sortedBy_total less Hless)).
Qed.

Lemma ascending_Sorted (fwis : list FileWithIndex) :
  StronglySorted ascending fwis -> Sorted (sortedBy lessIndex) fwis.
Proof.
  induction 1 as [|f fwis _ IH Hf]; constructor; [done|].
  destruct fwis as [|g fwis]; constructor.
  apply Forall_cons in Hf as [Hfg _]. apply sortedBy_lessIndex.
  unfold ascending, notAfter in *. lia.
Qed.

Section Sorting.
Variable sortSlice :
  (FileWithIndex -> FileWithIndex -> bool) -> list FileWithIndex ->
  list FileWithIndex.
Hypothesis sortSlice_Permutation : forall l, sortSlice lessIndex l ≡ₚ l.
Hypothesis sortSlice_Sorted : forall l, Sorted (sortedBy lessIndex) (sortSlice lessIndex l).

#[local] Instance sortedBy_lessIndex_trans : Transitive (sortedBy lessIndex).
Proof. intros a b c. rewrite !sortedBy_lessIndex. unfold notAfter. lia. Qed.

(** Sorting files with distinct indices by [lessIndex] gives them in
    ascending order of the index, whatever order they came in. *)
Lemma sortSlice_ascending (l fwis : list FileWithIndex) :
  StronglySorted ascending fwis -> l ≡ₚ fwis -> sortSlice lessIndex l = fwis.
Proof.
  intros Hasc Hperm.
  apply (Sorted_unique_strong (sortedBy lessIndex)).
  - intros x1 x2 H1 H2 H12 H21.
    apply sortedBy_lessIndex in H12, H21.
    apply (ascending_same_index fwis); [done| |done|unfold notAfter in *; lia].
    by rewrite <-Hperm, <-(sortSlice_Permutation l).
  - apply sortSlice_Sorted.
  - by apply ascending_Sorted.
  - by rewrite sortSlice_Permutation.
Qed.
End Sorting.

Lemma alter_append out (acc content : list byte) (fs : gmap string (list byte)) :
  fs !! out = Some acc ->
  alter (fun o => o ++ content) out fs = <[out := acc ++ content]> fs.
Proof.
  intros Hout. apply map_eq. intros k. rewrite lookup_alter, lookup_insert.
  case_decide; [subst; by rewrite Hout|done].
Qed.


Lemma copyAll_stored cio out (parts : list (FileWithIndex * list byte)) fs acc :
  fs !! out = Some acc -> Forall (stored cio out fs) parts ->
  copyAll cio out (fst <$> parts) fs
  = (Ok (), <[out := acc ++ concat (snd <$> parts)]> fs).
Proof.
  revert fs acc. induction parts as [|[f p] parts IH]; intros fs acc Hout Hall.
  - cbn. by rewrite app_nil_r, insert_id.
  - apply Forall_cons in Hall as [(Hne & Hf & Hcopy) Hall]. cbn in Hne, Hf, Hcopy.
    cbn [fmap list_fmap copyAll fst]. rewrite Hf, Hcopy.
    rewrite (alter_append out acc p fs Hout).
    cbn [fmap list_fmap] in IH. rewrite (IH _ (acc ++ p)).
    + rewrite insert_insert_eq. cbn. by rewrite app_assoc.
    + by rewrite lookup_insert_eq.
    + eapply Forall_impl; [done|]. intros [g q] (Hg & Hq & Hc). cbn in *.
      split; [done|]. split; [|done]. by rewrite lookup_insert_ne.
Qed.

Lemma removeAll_insert out v (l : list FileWithIndex) (fs : gmap string (list byte)) :
  Forall (fun f => Name f <> out) l ->
  removeAll l (<[out := v]> fs) = <[out := v]> (removeAll l fs).
Proof.
  revert fs. unfold removeAll.
  induction l as [|f l IH]; intros fs Hall; cbn [foldl]; [done|].
  apply Forall_cons in Hall as [Hf Hall].
  rewrite delete_insert_ne by done. by apply IH.
Qed.

Lemma removeAll_lookup (l : list FileWithIndex) (fs : gmap string (list byte)) k :
  removeAll l fs !! k = if decide (k ∈ Name <$> l) then None else fs !! k.
Proof.
  revert fs. unfold removeAll.
  induction l as [|f l IH]; intros fs; cbn [foldl fmap list_fmap].
  - destruct (decide (k ∈ [])) as [H|H]; [by apply elem_of_nil in H|done].
  - cbn [fmap list_fmap] in IH. rewrite IH.
    destruct (decide (k ∈ Name <$> l)) as [Hin|Hnin].
    + rewrite decide_True; [done|by right].
    + destruct (decide (k = Name f)) as [->|Hne].
      * rewrite lookup_delete_eq, decide_True; [done|by left].
      * rewrite lookup_delete_ne, decide_False; [done| |done].
        by intros [?|?]%elem_of_cons.
Qed.

Section Reassembly.
Variable sortSlice :
  (FileWithIndex -> FileWithIndex -> bool) -> list FileWithIndex ->
  list FileWithIndex.
Hypothesis sortSlice_Permutation : forall l, sortSlice lessIndex l ≡ₚ l.
Hypothesis sortSlice_Sorted : forall l, Sorted (sortedBy lessIndex) (sortSlice lessIndex l).

Variable cio : ConcatIO.
Variable out : string.
Variable fs : gmap string (list byte).
(** The parts in ascending order of their index. *)
Variable parts : list (FileWithIndex * list byte).
Hypothesis parts_ascending : StronglySorted ascending (fst <$> parts).
Hypothesis parts_named : Forall (fun part => named part.1) parts.

Lemma concatenateFiles_sorted (names : list string) :
  names ≡ₚ Name <$> (fst <$> parts) ->
  concatenateFiles sortSlice cio names out fs
  = match createDest cio with
    | Some e => (Error ("failed to create output file: " +:+ e), fs)
    | None =>
        match copyAll cio out (fst <$> parts) (<[out := []]> fs) with
        | (Ok _, fs') => (Ok (), removeAll (fst <$> parts) fs')
        | failed => failed
        end
    end.
Proof.
  intros Hperm. unfold concatenateFiles.
  destruct (parseAll_Permutation names (fst <$> parts)) as (parsed & -> & Hparsed);
    [by apply Forall_fmap|done|].
  by rewrite (sortSlice_ascending sortSlice sortSlice_Permutation sortSlice_Sorted
                parsed (fst <$> parts)).
Qed.

Lemma concatenateFiles_stored (names : list string) :
  names ≡ₚ Name <$> (fst <$> parts) ->
  createDest cio = None -> Forall (stored cio out fs) parts ->
  concatenateFiles sortSlice cio names out fs
  = (Ok (), <[out := concat (snd <$> parts)]> (removeAll (fst <$> parts) fs)).
Proof.
  intros Hperm Hcreate Hstored.
  rewrite concatenateFiles_sorted, Hcreate by done.
  rewrite (copyAll_stored cio out parts _ []).
  - rewrite insert_insert_eq. cbn [app].
    rewrite removeAll_insert; [done|].
    apply Forall_fmap. eapply Forall_impl; [done|]. by intros [f p] (? & _).
  - by rewrite lookup_insert_eq.
  - eapply Forall_impl; [done|]. intros [f p] (Hg & Hq & Hc). cbn in *.
    split; [done|]. split; [|done]. by rewrite lookup_insert_ne.
Qed.
End Reassembly.

(** ** The orchestrator *)

Section Workers.
Variable EncodeAll : Z -> list byte -> list byte.
Variable io : nat -> PartIO.
Variable inputFile : string.
Variable level : Z.
Variable offset : list Segment.

Local Abbreviation run := (worker EncodeAll io inputFile level offset).
Local Abbreviation names_of := (sent EncodeAll io inputFile level offset).
Local Abbreviation errors_of := (failure EncodeAll io inputFile level offset).
Local Abbreviation files_after := (effect EncodeAll io inputFile level offset).

(** When no goroutine panics, the channels receive one name per worker
    and the errors of the failed ones, in the order of completion. *)
Lemma runWorkers_returned completed fs names errs :
  Forall (fun i => returned (run i)) completed ->
  runWorkers EncodeAll io inputFile level offset completed fs names errs
  = Some (Ok (names ++ (names_of <$> completed), errs ++ omap errors_of completed),
          foldl files_after fs completed).
Proof.
  revert fs names errs.
  induction completed as [|i rest IH]; intros fs names errs Hall.
  - cbn. by rewrite !app_nil_r.
  - apply Forall_cons in Hall as [(r & part & Hrun & Hnp) Hall].
    cbn [runWorkers fmap list_fmap omap list_omap foldl].
    unfold sent, failure, effect in *.
    rewrite Hrun. cbn [sentName sentError writePart].
    destruct r as [name|e|m]; [| |by destruct (Hnp m)].
    + rewrite IH by done. cbn [sentName sentError].
      by rewrite <-app_assoc.
    + rewrite IH by done. cbn [sentName sentError].
      by rewrite <-!app_assoc.
Qed.

Lemma worker_succeeded i name part :
  run i = Some (Ok name, part) ->
  name = partName inputFile (Z.of_nat i) /\ exists w, part = Some w.
Proof.
  unfold worker, compressPart.
  destruct (offset !! i) as [seg|]; [|done].
  destruct (openInput (io i)); [|done].
  destruct (createOutput (io i)); [done|].
  destruct (newEncoder (io i)); [done|].
  destruct (readLoop _ _ _ _ _ _ _) as [[[?|?|?] w]|]; [|done..].
  intros [= <- <-]. eauto.
Qed.

Lemma omap_failure_succeeded (l : list nat) :
  Forall (fun i => succeeded (run i)) l -> omap errors_of l = [].
Proof.
  induction 1 as [|i l (name & part & Hi) _ IH]; [done|].
  cbn [omap list_omap]. unfold failure in *.
  rewrite Hi. cbn. apply IH.
Qed.

Lemma succeeded_returned i : succeeded (run i) -> returned (run i).
Proof. intros (name & part & ->). by eexists _, _. Qed.

(** The first failed worker to finish is the first error on the
    channel. *)
Lemma first_failure before i after e part :
  Forall (fun j => succeeded (run j)) before ->
  run i = Some (Error e, part) ->
  exists errs, omap errors_of (before ++ i :: after) = e :: errs.
Proof.
  intros Hbefore Hi. rewrite omap_app, omap_failure_succeeded by done.
  cbn [app omap list_omap]. unfold failure.
  rewrite Hi. cbn. eauto.
Qed.
End Workers.

(** ** The orchestrator when every worker succeeds *)

Lemma partFile_ascending inputFile (a n : nat) :
  StronglySorted ascending (partFile inputFile <$> seq a n).
Proof.
  revert a. induction n as [|n IH]; intros a; cbn [seq fmap list_fmap]; constructor.
  - apply IH.
  - apply Forall_fmap, Forall_forall. intros j Hj%elem_of_seq.
    unfold ascending, partFile, compose; cbn [Index]. lia.
Qed.

Lemma partFile_named inputFile (i : nat) :
  Z.of_nat i <= Int64.max_int -> hasChar "/" (Base inputFile) = false ->
  named (partFile inputFile i).
Proof.
  intros Hi Hbase. unfold named, partFile; cbn [Name Index].
  apply parseIndex_partName; [lia|done].
Qed.

Section Success.
Variable EncodeAll : Z -> list byte -> list byte.
Variable sortSlice :
  (FileWithIndex -> FileWithIndex -> bool) -> list FileWithIndex ->
  list FileWithIndex.
Hypothesis sortSlice_Permutation : forall l, sortSlice lessIndex l ≡ₚ l.
Hypothesis sortSlice_Sorted : forall l, Sorted (sortedBy lessIndex) (sortSlice lessIndex l).
Variable io : nat -> PartIO.
Variable cio : ConcatIO.
Variable inputFile outputFile : string.
Variable level : Z.
Variable offset : list Segment.
Variable n : nat.
Variable completed : list nat.

Local Abbreviation run := (worker EncodeAll io inputFile level offset).
Local Abbreviation files_after := (effect EncodeAll io inputFile level offset).

Hypothesis index_fits : Z.of_nat n <= Int64.max_int + 1.
Hypothesis base_name : hasChar "/" (Base inputFile) = false.
Hypothesis every_worker : completed ≡ₚ seq 0 n.
Hypothesis all_succeeded : forall i, (i < n)%nat -> succeeded (run i).

Lemma completed_lt i : i ∈ completed -> (i < n)%nat.
Proof. rewrite every_worker, elem_of_seq. lia. Qed.

Lemma partName_inj_completed i j :
  (i < n)%nat -> (j < n)%nat ->
  partName inputFile (Z.of_nat i) = partName inputFile (Z.of_nat j) -> i = j.
Proof.
  intros Hi Hj Heq. apply Nat2Z.inj.
  apply (partName_inj inputFile); [lia|lia|done|done].
Qed.

(** Files other than the part files are as they were. *)
Lemma files_after_other (l : list nat) (fs : gmap string (list byte)) k :
  (forall i, i ∈ l -> k <> partName inputFile (Z.of_nat i)) ->
  foldl files_after fs l !! k = fs !! k.
Proof.
  revert fs. induction l as [|i l IH]; intros fs Hk; cbn [foldl]; [done|].
  rewrite IH by (intros j Hj; apply Hk; by right).
  unfold effect. destruct (run i) as [[r [w|]]|]; cbn [writePart]; [|done..].
  rewrite lookup_insert_ne; [done|]. intros Heq. by apply (Hk i); [left|].
Qed.

(** Each part file holds what its worker wrote. *)
Lemma files_after_part (l : list nat) (fs : gmap string (list byte)) i :
  (forall j, j ∈ l -> (j < n)%nat) -> i ∈ l ->
  foldl files_after fs l !! partName inputFile (Z.of_nat i)
  = Some (payloadOf (run i)).
Proof.
  revert fs. induction l as [|j l IH] using rev_ind; intros fs Hl Hi.
  - by apply elem_of_nil in Hi.
  - rewrite foldl_app. cbn [foldl].
    assert (j < n)%nat as Hj by (apply Hl, elem_of_app; right; by left).
    destruct (all_succeeded j Hj) as (name & part & Hrun).
    destruct (worker_succeeded EncodeAll io inputFile level offset j name part Hrun)
      as [_ [w ->]].
    unfold effect at 1. rewrite Hrun. cbn [writePart].
    destruct (decide (i = j)) as [->|Hne].
    + rewrite lookup_insert_eq. unfold payloadOf. by rewrite Hrun.
    + rewrite lookup_insert_ne.
      * apply IH; [intros k Hk; apply Hl, elem_of_app; by left|].
        by apply elem_of_app in Hi as [Hi|Hi%list_elem_of_singleton].
      * intros Heq. apply Hne. symmetry.
        apply partName_inj_completed; [done| |done].
        by apply Hl.
Qed.

Lemma names_sent :
  sent EncodeAll io inputFile level offset <$> completed
  = (fun i => partName inputFile (Z.of_nat i)) <$> completed.
Proof.
  apply list_fmap_ext. intros k i Hi%list_elem_of_lookup_2.
  destruct (all_succeeded i (completed_lt i Hi)) as (name & part & Hrun).
  unfold sent. rewrite Hrun. cbn.
  by destruct (worker_succeeded EncodeAll io inputFile level offset i name part Hrun).
Qed.

Local Abbreviation payloads := (payloads EncodeAll io inputFile level offset n).

(** When every worker succeeds and the reassembler meets no error, the
    pipeline returns nil, the destination holds the payloads in index
    order and no part file is left. *)
Lemma compressFileBlock_succeeds (fs : gmap string (list byte)) numThreads :
  calculateSegment fs inputFile numThreads = Ok offset ->
  0 <= numThreads ->
  (forall i, (i < n)%nat -> outputFile <> partName inputFile (Z.of_nat i)) ->
  createDest cio = None ->
  (forall i, (i < n)%nat -> copyPart cio (partName inputFile (Z.of_nat i)) = None) ->
  exists fs',
    compressFileBlock EncodeAll sortSlice io cio fs inputFile outputFile level
      numThreads completed
    = Some {| ret := Ok (); files := fs'; stdout := [] |} /\
    fs' !! outputFile = Some (concat payloads) /\
    (forall i, (i < n)%nat -> fs' !! partName inputFile (Z.of_nat i) = None) /\
    (forall k, k <> outputFile ->
       (forall i, (i < n)%nat -> k <> partName inputFile (Z.of_nat i)) ->
       fs' !! k = fs !! k).
Proof.
  intros Hplan HT Hout Hcreate Hcopy.
  unfold compressFileBlock. rewrite Hplan.
  destruct (numThreads <? 0) eqn:E; [apply Z.ltb_lt in E; lia|]. clear E.
  rewrite (runWorkers_returned EncodeAll io inputFile level offset)
    by (apply Forall_forall; intros i Hi;
        apply succeeded_returned, all_succeeded, completed_lt, Hi).
  rewrite omap_failure_succeeded
    by (apply Forall_forall; intros i Hi; apply all_succeeded, completed_lt, Hi).
  cbn [app]. rewrite names_sent.
  set (fs1 := foldl files_after fs completed).
  set (parts := (fun i => (partFile inputFile i, payloadOf (run i))) <$> seq 0 n).
  assert (fst <$> parts = partFile inputFile <$> seq 0 n) as Hfst
    by (subst parts; by rewrite <-list_fmap_compose).
  assert (snd <$> parts = payloads) as Hsnd
    by (subst parts; unfold payloads; by rewrite <-list_fmap_compose).
  rewrite (concatenateFiles_stored sortSlice sortSlice_Permutation sortSlice_Sorted
             cio outputFile fs1 parts).
  - rewrite Hfst, Hsnd. eexists. split; [done|]. split; [|split].
    + by rewrite lookup_insert_eq.
    + intros i Hi. rewrite lookup_insert_ne by (by apply Hout).
      rewrite removeAll_lookup, decide_True; [done|].
      rewrite <-list_fmap_compose. apply list_elem_of_fmap.
      exists i. split; [done|]. apply elem_of_seq. lia.
    + intros k Hk Hparts. rewrite lookup_insert_ne by done.
      rewrite removeAll_lookup, decide_False.
      * subst fs1. apply files_after_other. intros i Hi. by apply Hparts, completed_lt.
      * rewrite <-list_fmap_compose. intros (i & -> & Hi%elem_of_seq)%list_elem_of_fmap.
        by apply (Hparts i); [lia|].
  - rewrite Hfst. apply partFile_ascending.
  - subst parts. apply Forall_fmap, Forall_forall. intros i Hi%elem_of_seq. cbn.
    apply partFile_named; [lia|done].
  - rewrite Hfst, <-list_fmap_compose. by rewrite every_worker.
  - done.
  - subst parts. apply Forall_fmap, Forall_forall. intros i Hi%elem_of_seq.
    split; [|split]; cbn.
    + intros Heq. by apply (Hout i); [lia|].
    + subst fs1. apply files_after_part; [apply completed_lt|].
      rewrite every_worker. apply elem_of_seq. lia.
    + apply Hcopy. lia.
Qed.
End Success.

(** ** Round trip on plannable sizes *)

Lemma slice_all (X : list byte) : slice 0 (Z.of_nat (length X)) X = X.
Proof.
  unfold slice. replace (Z.to_nat (Z.of_nat (length X) - 0)) with (length X) by lia.
  change (Z.to_nat 0) with 0%nat. rewrite drop_0. by apply take_ge.
Qed.

(** The slices of contiguous segments, one after the other, are the slice
    from the first start to the last end. *)
Lemma concat_slices (X : list byte) a (segs : list Segment) :
  0 <= a -> contiguous a segs -> Forall well_formed segs ->
  concat ((fun seg => slice seg.1 seg.2 X) <$> segs) = slice a (last_end a segs) X.
Proof.
  revert a. induction segs as [|[s e] segs IH]; intros a Ha Hc Hw.
  - cbn. by rewrite slice_empty by (unfold last_end; cbn; lia).
  - destruct Hc as [-> Hc]. apply Forall_cons in Hw as [Hse Hw].
    unfold well_formed in Hse; cbn in Hse.
    cbn [fmap list_fmap concat fst snd]. rewrite last_end_cons.
    cbn [fmap list_fmap] in IH. rewrite (IH e) by (done || lia).
    destruct (contiguous_start_le e segs Hc Hw) as [Hle _].
    apply slice_split; lia.
Qed.


Lemma framed_concat encode X (segs : list Segment) (payloads : list (list byte)) :
  Forall2 (framed encode X) segs payloads ->
  exists chunks, Forall (fun c => c <> []) chunks /\
    concat chunks = concat ((fun seg => slice seg.1 seg.2 X) <$> segs) /\
    concat payloads = concat (encode <$> chunks).
Proof.
  induction 1 as [|seg payload segs payloads (cs & Hne & Hcat & ->) _ (rest & Hne' & Hcat' & Hp)].
  - exists []. by split; [constructor|].
  - exists (cs ++ rest). split; [by apply Forall_app|]. split.
    + cbn [fmap list_fmap concat]. by rewrite concat_app, Hcat, Hcat'.
    + cbn [concat]. by rewrite fmap_app, concat_app, Hp.
Qed.

Section RoundTrip.
Variable EncodeAll : Z -> list byte -> list byte.
Variable decode : list byte -> result (list byte).
(** The framing property of the codec: frames of non-empty chunks, one
    after the other, decode as one stream to the chunks one after the
    other. *)
Hypothesis frames_concatenate : forall level chunks,
  Forall (fun c => c <> []) chunks ->
  decode (concat (EncodeAll level <$> chunks)) = Ok (concat chunks).
Variable sortSlice :
  (FileWithIndex -> FileWithIndex -> bool) -> list FileWithIndex ->
  list FileWithIndex.
Hypothesis sortSlice_Permutation : forall l, sortSlice lessIndex l ≡ₚ l.
Hypothesis sortSlice_Sorted : forall l, Sorted (sortedBy lessIndex) (sortSlice lessIndex l).

(** Round trip on plannable sizes, without I/O errors. *)
Lemma roundtrip_plannable (X : list byte) (fs : gmap string (list byte))
    (inputFile outputFile : string) (level numThreads : Z) (completed : list nat) :
  fs !! inputFile = Some X ->
  Z.of_nat (length X) <= maxPlannable ->
  1 <= numThreads <= Int64.max_int ->
  completed ≡ₚ seq 0 (Z.to_nat numThreads) ->
  hasChar "/" (Base inputFile) = false ->
  (forall i : nat, outputFile <> partName inputFile (Z.of_nat i)) ->
  exists fs' stream,
    compressFileBlock EncodeAll sortSlice (fun _ => fileIO X) quietConcat fs
      inputFile outputFile level numThreads completed
    = Some {| ret := Ok (); files := fs'; stdout := [] |} /\
    fs' !! outputFile = Some stream /\
    decompressFile decode stream = Ok X.
Proof.
  intros Hin Hsize HT Hcompleted Hbase Hout.
  set (F := Z.of_nat (length X)).
  assert (0 <= F <= maxPlannable) as HF by (subst F; lia).
  pose proof (divideFileIntoSegments_plannable F numThreads HF ltac:(lia)) as Hplan.
  set (offset := segments_loop _ _ _ _ _) in Hplan.
  assert (calculateSegment fs inputFile numThreads = Ok offset) as Hcalc
    by (unfold calculateSegment; by rewrite Hin).
  pose proof (plan_length F numThreads offset ltac:(lia) Hplan) as Hlen.
  assert (forall i seg, offset !! i = Some seg ->
            framed (EncodeAll level) X seg
              (payloadOf (worker EncodeAll (fun _ => fileIO X) inputFile level offset i)) /\
            succeeded (worker EncodeAll (fun _ => fileIO X) inputFile level offset i))
    as Hworker.
  { intros i seg Hseg.
    pose proof (plan_planned F numThreads HF ltac:(lia) offset i seg Hplan Hseg)
      as Hplanned.
    destruct (compressPart_file EncodeAll X inputFile (Z.of_nat i) seg level Hplanned)
      as (chunks & Hne & Hcat & Hrun).
    unfold worker. rewrite Hseg, Hrun. split; [by exists chunks|by eexists _, _]. }
  destruct (compressFileBlock_succeeds EncodeAll sortSlice sortSlice_Permutation
              sortSlice_Sorted (fun _ => fileIO X) quietConcat inputFile outputFile
              level offset (Z.to_nat numThreads) completed ltac:(lia) Hbase Hcompleted)
    with (fs := fs) (numThreads := numThreads)
    as (fs' & Hrun & Hstream & _); [|done|lia|by intros|done|done|].
  { intros i Hi. destruct (lookup_lt_is_Some_2 offset i ltac:(lia)) as [seg Hseg].
    by destruct (Hworker i seg Hseg). }
  exists fs', (concat (payloads EncodeAll (fun _ => fileIO X) inputFile level offset
                         (Z.to_nat numThreads))).
  split; [done|]. split; [done|].
  destruct (framed_concat (EncodeAll level) X offset
              (payloads EncodeAll (fun _ => fileIO X) inputFile level offset
                 (Z.to_nat numThreads))) as (chunks & Hne & Hcat & Hpay).
  { apply Forall2_same_length_lookup_2.
    - unfold payloads. rewrite length_fmap, length_seq. lia.
    - intros i seg payload Hseg Hp. unfold payloads in Hp.
      rewrite list_lookup_fmap in Hp.
      destruct (seq 0 (Z.to_nat numThreads) !! i) as [j|] eqn:Hj; [|done].
      apply lookup_seq in Hj as [-> _]. cbn in Hp. injection Hp as <-.
      by destruct (Hworker i seg Hseg). }
  unfold decompressFile. rewrite Hpay, frames_concatenate, Hcat by done.
  rewrite (concat_slices X 0 offset); [|done|by eapply plan_contiguous|].
  - rewrite (plan_last_end F numThreads HF ltac:(lia) offset Hplan).
    subst F. by rewrite slice_all.
  - by destruct (plan_partitions F numThreads HF ltac:(lia) offset Hplan) as (_ & ? & _).
Qed.
End RoundTrip.

(** ** The worker at the top of the [int64] range *)

(** A read that carries the cursor past [endOffset] ends the worker in
    the panic. *)
Lemma compressPart_overread EncodeAll io read inputFile idx seg level chunk :
  openInput io = Opened read -> createOutput io = None -> newEncoder io = None ->
  read (seekStart seg.1) = ReadBytes chunk -> chunk <> [] ->
  writeOutput io (seekStart seg.1) = None -> tellInput io (seekStart seg.1) = None ->
  seg.2 < seekStart seg.1 + Z.of_nat (length chunk) ->
  compressPart EncodeAll io inputFile idx seg level
  = Some (Panic overReadMsg, Some (EncodeAll level chunk)).
Proof.
  intros Hopen Hcreate Henc Hread Hne Hwrite Htell Hover.
  unfold compressPart. rewrite Hopen, Hcreate, Henc.
  cbn [readLoop]. unfold iteration. rewrite Hread, Hwrite, Htell.
  destruct (Z.of_nat (length chunk) =? 0) eqn:E0.
  { apply Z.eqb_eq in E0. destruct chunk; [done|cbn in E0; lia]. }
  destruct (_ =? seg.2) eqn:E1; [apply Z.eqb_eq in E1; lia|].
  destruct (seg.2 <? _) eqn:E2; [done|apply Z.ltb_ge in E2; lia].
Qed.

Lemma hugeFile_length : Z.of_nat (length hugeFile) = Int64.max_int.
Proof. unfold hugeFile. rewrite length_replicate. unfold Int64.max_int. lia. Qed.

Lemma hugeFile_plan :
  divideFileIntoSegments (Z.of_nat (length hugeFile)) 1
  = Ok [(0, -9223372036853727232)].
Proof. rewrite hugeFile_length. reflexivity. Qed.

Lemma hugeFile_first_read :
  exists chunk, fileRead hugeFile 0 = ReadBytes chunk /\
    Z.of_nat (length chunk) = oneMB.
Proof.
  unfold fileRead. eexists. split; [done|].
  rewrite length_take, length_drop.
  pose proof hugeFile_length as Hlen. unfold Int64.max_int in Hlen.
  rewrite oneMB_val. lia.
Qed.

Lemma hugeFile_worker inputFile :
  exists part,
    compressPart storeEncodeAll (fileIO hugeFile) inputFile 0
      (0, -9223372036853727232) 3
    = Some (Panic overReadMsg, part).
Proof.
  destruct hugeFile_first_read as (chunk & Hread & Hlen).
  eexists. apply (compressPart_overread _ _ (fileRead hugeFile) _ _ _ _ chunk);
    try done.
  - intros ->. cbn in Hlen. by rewrite oneMB_val in Hlen.
  - cbn [snd fst]. change (seekStart 0) with 0. rewrite Hlen, oneMB_val. lia.
Qed.

(** * The claims *)

(** ** The planner at the top of the [int64] range *)

(** C2, at the failing input: for a file of [2^63 - 1] bytes and one
    worker the round-up to whole MiB wraps around, and the single segment
    the planner returns ends below zero; the plan is not a partition of
    the file. *)
Theorem partition_fails_on_huge_size :
  divideFileIntoSegments Int64.max_int 1 = Ok [(0, -9223372036853727232)] /\
  ~ partitions Int64.max_int [(0, -9223372036853727232)].
Proof.
  split; [reflexivity|].
  intros (_ & Hw & _). apply Forall_cons in Hw as [Hw _].
  unfold well_formed in Hw. cbn in Hw. lia.
Qed.

(** C10, at the failing input: the planner returns one segment for one
    worker, but that segment is not inside the file. *)
Theorem segment_bounds_fail_on_huge_size :
  exists segs seg,
    divideFileIntoSegments Int64.max_int 1 = Ok segs /\
    length segs = 1%nat /\ segs !! 0%nat = Some seg /\
    ~ within Int64.max_int seg.
Proof.
  exists [(0, -9223372036853727232)], (0, -9223372036853727232).
  split; [reflexivity|]. split; [done|]. split; [done|].
  unfold within. cbn. lia.
Qed.

(** The orchestrator's [offset[i]] is in bounds for every worker, whatever
    the size. *)
Lemma offset_in_bounds fileSize threadCount segs (i : nat) :
  divideFileIntoSegments fileSize threadCount = Ok segs ->
  Z.of_nat i < threadCount -> is_Some (segs !! i).
Proof.
  intros Hplan Hi. apply lookup_lt_is_Some_2.
  pose proof (plan_length fileSize threadCount segs ltac:(lia) Hplan). lia.
Qed.

(** Inside the file on plannable sizes. *)
Lemma plan_within fileSize threadCount segs (i : nat) seg :
  0 <= fileSize <= maxPlannable -> 1 <= threadCount ->
  divideFileIntoSegments fileSize threadCount = Ok segs ->
  segs !! i = Some seg -> within fileSize seg.
Proof.
  intros HF HT Hplan Hseg.
  by destruct (plan_planned fileSize threadCount HF HT segs i seg Hplan Hseg).
Qed.

(** ** The planner on an empty file *)

(** C6, as stated, fails: for an empty file and two workers the planner
    returns two empty segments. *)
Lemma empty_file_two_workers :
  divideFileIntoSegments 0 2 = Ok [(0, 0); (0, 0)] /\
  ~ none_or_single_empty [(0, 0); (0, 0)].
Proof.
  split; [reflexivity|]. by intros [?|[s ?]].
Qed.

Lemma segments_loop_empty n : segments_loop n 0 0 0 0 = replicate n (0, 0).
Proof. induction n as [|n IH]; [done|]. cbn [segments_loop replicate]. by f_equal. Qed.

(** C6, amended: for an empty file the planner does not panic and returns
    exactly [threadCount] segments, every one the empty segment at
    offset 0. *)
Theorem empty_file_plan threadCount :
  1 <= threadCount ->
  divideFileIntoSegments 0 threadCount
  = Ok (replicate (Z.to_nat threadCount) (0, 0)).
Proof.
  intros HT. unfold divideFileIntoSegments.
  destruct (threadCount =? 0) eqn:E; [apply Z.eqb_eq in E; lia|].
  change (Int64.quot (Int64.sub (Int64.add 0 oneMB) 1) oneMB) with 0.
  unfold Int64.quot, Int64.rem. rewrite Z.quot_0_l, Z.rem_0_l by lia.
  change (Int64.wrap 0) with 0. by rewrite segments_loop_empty.
Qed.

Lemma empty_file_plan_witness :
  divideFileIntoSegments 0 3 = Ok (replicate (Z.to_nat 3) (0, 0)).
Proof. apply (empty_file_plan 3). lia. Defined.

(** ** Alignment of the ends *)

(** C7, as stated, fails: for a one-byte file and three workers the first
    of three segments ends at offset 1. *)
Lemma first_end_unaligned :
  divideFileIntoSegments 1 3 = Ok [(0, 1); (1, 1); (1, 1)] /\
  ~ ends_aligned_but_last_two [(0, 1); (1, 1); (1, 1)].
Proof.
  split; [reflexivity|]. intros H.
  specialize (H 0%nat (0, 1) eq_refl ltac:(cbn; lia)).
  cbn in H. destruct H as [k Hk]. rewrite oneMB_val in Hk. lia.
Qed.

(** C7, amended: for every file size [>= 0], every segment's end is a
    whole number of MiB or the file size, and when there are at least as
    many MiB units as workers every end but the last is a whole number of
    MiB. *)
Theorem ends_aligned_or_file_size fileSize threadCount :
  0 <= fileSize -> 1 <= threadCount ->
  exists segs,
    divideFileIntoSegments fileSize threadCount = Ok segs /\
    (forall (i : nat) seg, segs !! i = Some seg -> aligned fileSize seg.2) /\
    (threadCount <= unitsOf fileSize ->
     forall (i : nat) seg, segs !! i = Some seg ->
       Z.of_nat i < threadCount - 1 -> (oneMB | seg.2)).
Proof.
  intros HF HT. destruct (Z.le_gt_cases fileSize maxPlannable) as [Hle|Hgt].
  - eexists. split; [by apply divideFileIntoSegments_plannable|].
    pose proof (divideFileIntoSegments_plannable fileSize threadCount
                  ltac:(lia) HT) as Hplan.
    split.
    + intros i seg Hseg.
      by destruct (plan_planned fileSize threadCount ltac:(lia) HT _ i seg Hplan Hseg)
        as (_ & _ & ? & _).
    + intros HU i seg Hseg Hi.
      exact (plan_inner_ends_aligned fileSize threadCount ltac:(lia) HT _ i seg HU
               Hplan Hseg Hi).
  - unfold divideFileIntoSegments.
    destruct (threadCount =? 0) eqn:E; [apply Z.eqb_eq in E; lia|].
    eexists. split; [done|]. split.
    + intros i seg Hseg. left.
      eapply segments_loop_beyond; [done|apply Z.divide_0_r|done].
    + intros _ i seg Hseg _.
      eapply segments_loop_beyond; [done|apply Z.divide_0_r|done].
Qed.

Lemma ends_aligned_or_file_size_witness :
  exists segs,
    divideFileIntoSegments 3145735 2 = Ok segs /\
    (forall (i : nat) seg, segs !! i = Some seg -> aligned 3145735 seg.2) /\
    (2 <= unitsOf 3145735 ->
     forall (i : nat) seg, segs !! i = Some seg ->
       Z.of_nat i < 2 - 1 -> (oneMB | seg.2)).
Proof.
  apply (ends_aligned_or_file_size 3145735 2).
  - lia.
  - lia.
Defined.

(** ** The worker *)

(** C3, at the failing input: on the segment the planner returns for a
    file of [2^63 - 1] bytes and one worker, the first read of 1 MiB
    carries the cursor past the segment's end and the worker panics. *)
Theorem worker_overreads_on_huge_file :
  exists seg part,
    divideFileIntoSegments (Z.of_nat (length hugeFile)) 1 = Ok [seg] /\
    compressPart storeEncodeAll (fileIO hugeFile) "big" 0 seg 3
    = Some (Panic overReadMsg, part).
Proof.
  destruct (hugeFile_worker "big") as [part Hrun].
  exists (0, -9223372036853727232), part. split; [apply hugeFile_plan|done].
Qed.

(** On plannable sizes a worker on a planned segment of the file returns
    the part's name, and its cursor stays within the segment. *)
Lemma worker_stays_in_segment EncodeAll (X : list byte) threadCount segs
    (i : nat) seg inputFile level :
  Z.of_nat (length X) <= maxPlannable -> 1 <= threadCount ->
  divideFileIntoSegments (Z.of_nat (length X)) threadCount = Ok segs ->
  segs !! i = Some seg ->
  (exists payload,
     compressPart EncodeAll (fileIO X) inputFile (Z.of_nat i) seg level
     = Some (Ok (partName inputFile (Z.of_nat i)), Some payload)) /\
  (forall k pos w,
     reaches k (EncodeAll level) (fileIO X) (fileRead X) seg.2 (seekStart seg.1) []
       pos w -> pos <= seg.2).
Proof.
  intros HX HT Hplan Hseg.
  pose proof (plan_planned (Z.of_nat (length X)) threadCount ltac:(lia) HT
                segs i seg Hplan Hseg) as Hplanned.
  split.
  - destruct (compressPart_file EncodeAll X inputFile (Z.of_nat i) seg level Hplanned)
      as (chunks & _ & _ & Hrun). eauto.
  - intros k pos w. by apply file_cursor_bounded.
Qed.

(** C4, as stated, fails: on the segment [0, 10) of a file that has only
    three bytes left, the second read returns zero bytes at offset 3, and
    the worker returns the part's name and no error. *)
Lemma short_read_not_fatal :
  reaches 1 (storeEncodeAll 3) (fileIO smallFile) (fileRead smallFile) 10 0 []
    3 smallFile /\
  3 < 10 /\
  fileRead smallFile 3 = ReadBytes [] /\
  compressPart storeEncodeAll (fileIO smallFile) "in.bin" 0 (0, 10) 3
  = Some (Ok "0-in.bin-output-segment.part0", Some smallFile).
Proof. vm_compute. repeat split; lia || reflexivity. Qed.

(** C4, amended: when a read returns zero bytes with a nil or [io.EOF]
    error, at whatever cursor position — below [segment.end] too — the
    worker stops reading and returns the part's name and a nil error, with
    what it compressed so far in the part file. *)
Theorem zero_read_completes EncodeAll io read inputFile idx seg level
    (k : nat) pos written :
  openInput io = Opened read -> createOutput io = None -> newEncoder io = None ->
  reaches k (EncodeAll level) io read seg.2 (seekStart seg.1) [] pos written ->
  read pos = ReadBytes [] ->
  compressPart EncodeAll io inputFile idx seg level
  = Some (Ok (partName inputFile idx), Some written).
Proof.
  intros Hopen Hcreate Henc Hreach Hread.
  unfold compressPart. rewrite Hopen, Hcreate, Henc.
  destruct (reaches_bounds _ _ _ _ _ _ _ _ _ Hreach) as [Hle Hlt].
  assert (exists fuel, S (Z.to_nat (seg.2 - seekStart seg.1)) = (k + S fuel)%nat)
    as [fuel ->].
  { exists (Z.to_nat (seg.2 - seekStart seg.1) - k)%nat.
    destruct k; [lia|]. specialize (Hlt ltac:(done)). lia. }
  rewrite (readLoop_from_reached _ _ _ _ _ _ _ _ _ _ Hreach).
  cbn [readLoop]. by rewrite iteration_zero_read.
Qed.

Lemma zero_read_completes_witness :
  compressPart storeEncodeAll (fileIO smallFile) "in.bin" 0 (0, 10) 3
  = Some (Ok (partName "in.bin" 0), Some smallFile).
Proof.
  apply (zero_read_completes storeEncodeAll (fileIO smallFile) (fileRead smallFile)
           "in.bin" 0 (0, 10) 3 1 3 smallFile).
  - reflexivity.
  - reflexivity.
  - reflexivity.
  - vm_compute. split; reflexivity.
  - vm_compute. reflexivity.
Defined.

(** ** The reassembler *)


Lemma mergeSortSlice_Permutation less l : mergeSortSlice less l ≡ₚ l.
Proof. apply merge_sort_Permutation. Qed.

Lemma sortedBy_lessIndex_total : Total (sortedBy lessIndex).
Proof. intros a b. rewrite !sortedBy_lessIndex. unfold notAfter. lia. Qed.

Lemma mergeSortSlice_Sorted l :
  Sorted (sortedBy lessIndex) (mergeSortSlice lessIndex l).
Proof.
  apply (@Sorted_merge_sort _ (sortedBy lessIndex) _ sortedBy_lessIndex_total).
Qed.


(** ** The orchestrator *)

(** C8, as stated, fails: when worker 1 of 2 cannot read, the call does
    not return an error to its caller; it panics with a fixed message, and
    neither the message nor the line printed before names segment 1. *)
Lemma failure_without_index :
  worker storeEncodeAll secondBroken "in.bin" 3 [(0, 3); (3, 3)] 1
  = Some (Error "failed to read input: input/output error", Some []) /\
  (exists fs',
     compressFileBlock storeEncodeAll mergeSortSlice secondBroken quietConcat
       smallFiles "in.bin" "out.zst" 3 2 [1; 0]%nat
     = Some {| ret := Panic panicMsg; files := fs';
               stdout := ["failed to read input: input/output error"] |}) /\
  hasChar "1" panicMsg = false /\
  hasChar "1" "failed to read input: input/output error" = false.
Proof.
  split; [vm_compute; reflexivity|]. split; [|split; reflexivity].
  eexists. vm_compute. reflexivity.
Qed.

(** C8, amended: when a worker returns an error and no goroutine panics,
    the call does not return to its caller: it prints the error of the
    first failed worker to finish, as [compressPart] returned it, and
    panics with the fixed message. *)
Theorem worker_failure_panics EncodeAll sortSlice io cio
    (fs : gmap string (list byte)) inputFile outputFile level numThreads offset
    (before : list nat) (i : nat) (after : list nat) e part :
  calculateSegment fs inputFile numThreads = Ok offset ->
  0 <= numThreads ->
  Forall (fun j => succeeded (worker EncodeAll io inputFile level offset j)) before ->
  worker EncodeAll io inputFile level offset i = Some (Error e, part) ->
  Forall (fun j => returned (worker EncodeAll io inputFile level offset j)) after ->
  exists fs',
    compressFileBlock EncodeAll sortSlice io cio fs inputFile outputFile level
      numThreads (before ++ i :: after)
    = Some {| ret := Panic panicMsg; files := fs'; stdout := [e] |}.
Proof.
  intros Hplan HT Hbefore Hi Hafter.
  unfold compressFileBlock. rewrite Hplan.
  destruct (numThreads <? 0) eqn:E; [apply Z.ltb_lt in E; lia|]. clear E.
  rewrite (runWorkers_returned EncodeAll io inputFile level offset).
  - destruct (first_failure EncodeAll io inputFile level offset before i after e part
                Hbefore Hi) as [errs ->].
    cbn [app]. eauto.
  - apply Forall_app. split.
    + eapply Forall_impl; [done|]. intros j. apply succeeded_returned.
    + constructor; [|done]. by eexists _, _.
Qed.

Lemma worker_failure_panics_witness :
  exists fs',
    compressFileBlock storeEncodeAll mergeSortSlice secondBroken quietConcat
      smallFiles "in.bin" "out.zst" 3 2 ([0%nat] ++ 1%nat :: [])
    = Some {| ret := Panic panicMsg; files := fs';
              stdout := ["failed to read input: input/output error"] |}.
Proof.
  apply (worker_failure_panics storeEncodeAll mergeSortSlice secondBroken quietConcat
           smallFiles "in.bin" "out.zst" 3 2 [(0, 3); (3, 3)] [0%nat] 1%nat []
           "failed to read input: input/output error" (Some [])).
  - vm_compute. reflexivity.
  - lia.
  - constructor; [|constructor]. eexists _, _. vm_compute. reflexivity.
  - vm_compute. reflexivity.
  - constructor.
Defined.

(** C9, as stated, fails: when worker 1 of 2 cannot read, the call panics
    and the part file of worker 0 is still there, with the empty part file
    of worker 1. *)
Lemma parts_left_after_failure :
  exists fs',
    compressFileBlock storeEncodeAll mergeSortSlice secondBroken quietConcat
      smallFiles "in.bin" "out.zst" 3 2 [1; 0]%nat
    = Some {| ret := Panic panicMsg; files := fs';
              stdout := ["failed to read input: input/output error"] |} /\
    fs' !! "0-in.bin-output-segment.part0" = Some smallFile /\
    fs' !! "1-in.bin-output-segment.part1" = Some [].
Proof.
  eexists. split; [vm_compute; reflexivity|]. split; vm_compute; reflexivity.
Qed.

(** C9, amended: when every worker succeeds and the reassembler meets no
    error, the call returns nil and no part file is left. *)
Theorem parts_removed_on_success EncodeAll sortSlice io cio
    (fs : gmap string (list byte)) inputFile outputFile level numThreads offset
    (completed : list nat) :
  (forall l, sortSlice lessIndex l ≡ₚ l) ->
  (forall l, Sorted (sortedBy lessIndex) (sortSlice lessIndex l)) ->
  calculateSegment fs inputFile numThreads = Ok offset ->
  1 <= numThreads <= Int64.max_int ->
  completed ≡ₚ seq 0 (Z.to_nat numThreads) ->
  hasChar "/" (Base inputFile) = false ->
  (forall i : nat, Z.of_nat i < numThreads ->
     outputFile <> partName inputFile (Z.of_nat i)) ->
  (forall i : nat, Z.of_nat i < numThreads ->
     succeeded (worker EncodeAll io inputFile level offset i)) ->
  createDest cio = None ->
  (forall i : nat, Z.of_nat i < numThreads ->
     copyPart cio (partName inputFile (Z.of_nat i)) = None) ->
  exists fs',
    compressFileBlock EncodeAll sortSlice io cio fs inputFile outputFile level
      numThreads completed
    = Some {| ret := Ok (); files := fs'; stdout := [] |} /\
    (forall i : nat, Z.of_nat i < numThreads ->
       fs' !! partName inputFile (Z.of_nat i) = None).
Proof.
  intros HP HS Hplan HT Hcompleted Hbase Hout Hok Hcreate Hcopy.
  destruct (compressFileBlock_succeeds EncodeAll sortSlice HP HS io cio inputFile
              outputFile level offset (Z.to_nat numThreads) completed
              ltac:(lia) Hbase Hcompleted)
    with (fs := fs) (numThreads := numThreads)
    as (fs' & Hrun & _ & Hparts & _).
  - intros i Hi. apply Hok. lia.
  - done.
  - lia.
  - intros i Hi. apply Hout. lia.
  - done.
  - intros i Hi. apply Hcopy. lia.
  - exists fs'. split; [done|]. intros i Hi. apply Hparts. lia.
Qed.

Lemma parts_removed_on_success_witness :
  exists fs',
    compressFileBlock storeEncodeAll mergeSortSlice (fun _ => fileIO smallFile)
      quietConcat smallFiles "in.bin" "out.zst" 3 2 [1; 0]%nat
    = Some {| ret := Ok (); files := fs'; stdout := [] |} /\
    (forall i : nat, Z.of_nat i < 2 ->
       fs' !! partName "in.bin" (Z.of_nat i) = None).
Proof.
  apply (parts_removed_on_success storeEncodeAll mergeSortSlice
           (fun _ => fileIO smallFile) quietConcat smallFiles "in.bin" "out.zst"
           3 2 [(0, 3); (3, 3)] [1; 0]%nat).
  - apply mergeSortSlice_Permutation.
  - apply mergeSortSlice_Sorted.
  - vm_compute. reflexivity.
  - vm_compute. split; discriminate.
  - apply perm_swap.
  - reflexivity.
  - intros [|[|i]] Hi; [vm_compute; discriminate..|lia].
  - intros [|[|i]] Hi; [eexists _, _; vm_compute; reflexivity..|lia].
  - reflexivity.
  - reflexivity.
Defined.

(** C1, at the failing input: block compression of a file of [2^63 - 1]
    bytes with one worker panics in the worker and leaves no output, so
    there is nothing to decompress. *)
Theorem roundtrip_fails_on_huge_file :
  exists fs',
    compressFileBlock storeEncodeAll mergeSortSlice (fun _ => fileIO hugeFile)
      quietConcat {[ "big" := hugeFile ]} "big" "big.zst" 3 1 [0%nat]
    = Some {| ret := Panic overReadMsg; files := fs'; stdout := [] |} /\
    fs' !! "big.zst" = None.
Proof.
  destruct (hugeFile_worker "big") as [part Hrun].
  unfold compressFileBlock, calculateSegment.
  rewrite lookup_singleton_eq, hugeFile_plan.
  change (1 <? 0) with false. cbn [runWorkers].
  unfold worker. cbn [lookup list_lookup]. change (Z.of_nat 0) with 0.
  rewrite Hrun. eexists. split; [done|].
  destruct part as [content|]; cbn [writePart].
  - rewrite lookup_insert_ne by (vm_compute; discriminate).
    by rewrite lookup_singleton_ne.
  - by rewrite lookup_singleton_ne.
Qed.

(** The round trip on a small file with two workers, the second
    finishing first, through the stand-in codec and sort. *)
Lemma roundtrip_small_file :
  exists fs' stream,
    compressFileBlock storeEncodeAll mergeSortSlice (fun _ => fileIO smallFile)
      quietConcat smallFiles "in.bin" "out.zst" 3 2 [1; 0]%nat
    = Some {| ret := Ok (); files := fs'; stdout := [] |} /\
    fs' !! "out.zst" = Some stream /\
    decompressFile storeDecode stream = Ok smallFile.
Proof.
  apply (roundtrip_plannable storeEncodeAll storeDecode).
  - intros level chunks _. unfold storeDecode. do 2 f_equal.
    induction chunks as [|c chunks IH]; [done|]. cbn. by f_equal.
  - apply mergeSortSlice_Permutation.
  - apply mergeSortSlice_Sorted.
  - reflexivity.
  - rewrite maxPlannable_val. cbn. lia.
  - unfold Int64.max_int. lia.
  - apply perm_swap.
  - reflexivity.
  - intros i Heq.
    assert (hasChar "-" "out.zst" = hasChar "-" (partName "in.bin" (Z.of_nat i)))
      as Hdash by (by rewrite Heq).
    unfold partName in Hdash. rewrite !hasChar_app in Hdash.
    cbn in Hdash. by rewrite orb_true_r in Hdash.
Qed.

(** * Further properties *)

(** ** The planner *)

(** X1: for every size an [int64] can hold, also where the round-up wraps
    around, and every [threadCount >= 1], the planner returns exactly
    [threadCount] segments, the first starting at 0 and each starting
    where the one before ends. *)
Theorem plan_count_and_chain fileSize threadCount :
  1 <= threadCount ->
  exists segs,
    divideFileIntoSegments fileSize threadCount = Ok segs /\
    Z.of_nat (length segs) = threadCount /\
    contiguous 0 segs.
Proof.
  intros HT. unfold divideFileIntoSegments.
  destruct (threadCount =? 0) eqn:E; [apply Z.eqb_eq in E; lia|].
  eexists. split; [done|]. split.
  - rewrite segments_loop_length. lia.
  - apply segments_loop_contiguous.
Qed.

Lemma plan_count_and_chain_witness :
  exists segs,
    divideFileIntoSegments Int64.max_int 3 = Ok segs /\
    Z.of_nat (length segs) = 3 /\
    contiguous 0 segs.
Proof. apply (plan_count_and_chain Int64.max_int 3). lia. Defined.

(** X2: on every plannable size the plan is a partition of the file:
    ordered, contiguous from 0 to [fileSize], pairwise disjoint, covering
    exactly [[0, fileSize)], every segment inside the file. *)
Theorem plan_partitions_file fileSize threadCount :
  0 <= fileSize <= maxPlannable -> 1 <= threadCount ->
  exists segs,
    divideFileIntoSegments fileSize threadCount = Ok segs /\
    partitions fileSize segs /\
    Forall (within fileSize) segs.
Proof.
  intros HF HT.
  pose proof (divideFileIntoSegments_plannable fileSize threadCount HF HT) as Hplan.
  eexists. split; [exact Hplan|]. split.
  - by apply (plan_partitions fileSize threadCount HF HT).
  - apply Forall_lookup. intros i seg Hseg.
    by destruct (plan_planned fileSize threadCount HF HT _ i seg Hplan Hseg).
Qed.

Lemma plan_partitions_file_witness :
  exists segs,
    divideFileIntoSegments 10485760 4 = Ok segs /\
    partitions 10485760 segs /\
    Forall (within 10485760) segs.
Proof.
  apply (plan_partitions_file 10485760 4).
  - rewrite maxPlannable_val. lia.
  - lia.
Defined.

(** X3: on every plannable size the shares are balanced: no segment is
    longer than the base share of whole MiB plus one MiB, and no segment
    is longer than the one before it. *)
Theorem plan_shares_balanced fileSize threadCount segs (i : nat) a :
  0 <= fileSize <= maxPlannable -> 1 <= threadCount ->
  divideFileIntoSegments fileSize threadCount = Ok segs ->
  segs !! i = Some a ->
  a.2 - a.1 <= (unitsOf fileSize / threadCount + 1) * oneMB /\
  (forall b, segs !! S i = Some b -> b.2 - b.1 <= a.2 - a.1).
Proof.
  intros HF HT Hplan Ha.
  pose proof (plan_length fileSize threadCount segs ltac:(lia) Hplan) as Hlen.
  assert (Z.of_nat i < threadCount) as Hi
    by (apply lookup_lt_Some in Ha; lia).
  rewrite (plan_lookup fileSize threadCount segs i HF HT Hplan Hi) in Ha.
  injection Ha as <-. cbn [fst snd].
  destruct (unitsOf_bounds fileSize ltac:(lia)) as [HU0 HUb].
  pose proof (Z.mod_pos_bound (unitsOf fileSize) threadCount ltac:(lia)) as Hr.
  pose proof (Z.div_pos (unitsOf fileSize) threadCount ltac:(lia) ltac:(lia)) as Hq.
  set (q := unitsOf fileSize / threadCount) in *.
  set (r := unitsOf fileSize mod threadCount) in *.
  assert (forall j, 0 <= j ->
            unitsBefore q r (j + 1) = unitsBefore q r j + q + (if j <? r then 1 else 0))
    as Hstep.
  { intros j Hj. unfold unitsBefore.
    destruct (j <? r) eqn:E; [apply Z.ltb_lt in E|apply Z.ltb_ge in E]; lia. }
  assert (0 <= unitsBefore q r (Z.of_nat i)) as HC0.
  { unfold unitsBefore.
    assert (0 <= Z.of_nat i * q) by (apply Z.mul_nonneg_nonneg; lia). lia. }
  pose proof (Hstep (Z.of_nat i) ltac:(lia)) as H1.
  rewrite oneMB_val in *. split.
  - destruct (Z.of_nat i <? r); lia.
  - intros b Hb.
    assert (Z.of_nat (S i) < threadCount) as Hi'
      by (apply lookup_lt_Some in Hb; lia).
    rewrite (plan_lookup fileSize threadCount segs (S i) HF HT Hplan Hi') in Hb.
    injection Hb as <-. cbn [fst snd]. fold q r.
    replace (Z.of_nat (S i)) with (Z.of_nat i + 1) by lia.
    pose proof (Hstep (Z.of_nat i + 1) ltac:(lia)) as H2.
    rewrite oneMB_val.
    destruct (Z.of_nat i <? r) eqn:E1;
      [apply Z.ltb_lt in E1|apply Z.ltb_ge in E1];
      destruct (Z.of_nat i + 1 <? r) eqn:E2;
      [apply Z.ltb_lt in E2|apply Z.ltb_ge in E2| apply Z.ltb_lt in E2|apply Z.ltb_ge in E2];
      lia.
Qed.

Lemma plan_shares_balanced_witness :
  (0, 2097152).2 - (0, 2097152).1 <= (unitsOf 3145735 / 2 + 1) * oneMB /\
  (forall b, [(0, 2097152); (2097152, 3145735)] !! 1%nat = Some b ->
     b.2 - b.1 <= (0, 2097152).2 - (0, 2097152).1).
Proof.
  apply (plan_shares_balanced 3145735 2 [(0, 2097152); (2097152, 3145735)] 0).
  - rewrite maxPlannable_val. lia.
  - lia.
  - reflexivity.
  - reflexivity.
Defined.

(** ** [divmod] *)

(** X4: for a divisor other than zero [divmod] returns a quotient and a
    remainder with [quotient * denominator + remainder] equal to the
    numerator in [int64] arithmetic, the remainder smaller in absolute
    value than the divisor and of the numerator's sign. *)
Theorem divmod_spec numerator denominator :
  Int64.in_range numerator -> Int64.in_range denominator -> denominator <> 0 ->
  exists quotient remainder,
    divmod numerator denominator = Ok (quotient, remainder) /\
    Int64.add (Int64.mul quotient denominator) remainder = numerator /\
    Z.abs remainder < Z.abs denominator /\
    0 <= remainder * numerator.
Proof.
  intros Hn Hd Hd0. unfold divmod.
  destruct (denominator =? 0) eqn:E; [apply Z.eqb_eq in E; lia|].
  eexists _, _. split; [done|].
  pose proof (Z.quot_rem' numerator denominator) as Hqr.
  pose proof (Z.rem_bound_abs numerator denominator Hd0) as Habs.
  pose proof (Z.rem_sign_mul numerator denominator Hd0) as Hsign.
  unfold Int64.add, Int64.mul, Int64.quot, Int64.rem.
  split; [|split; [lia|lia]].
  assert (forall a b, Int64.wrap (Int64.wrap a * b) = Int64.wrap (a * b)) as Hmul.
  { intros a b. unfold Int64.wrap. f_equal.
    replace ((a + 9223372036854775808) mod 18446744073709551616
             - 9223372036854775808)
      with ((a + 9223372036854775808) mod 18446744073709551616
            + (-1) * 9223372036854775808) by lia.
    rewrite <-(Zplus_mod_idemp_l (_ * b)), <-(Zplus_mod_idemp_l (a * b)).
    f_equal. f_equal.
    rewrite Z.mul_add_distr_r.
    rewrite <-Zplus_mod_idemp_l, Zmult_mod_idemp_l, Zplus_mod_idemp_l.
    f_equal. lia. }
  assert (forall a b, Int64.wrap (Int64.wrap a + b) = Int64.wrap (a + b)) as Hadd.
  { intros a b. replace (Int64.wrap a + b) with (Int64.wrap a - (- b)) by lia.
    rewrite wrap_sub_wrap. f_equal. lia. }
  rewrite Hmul, Hadd.
  rewrite wrap_in_range; [lia|].
  replace (numerator ÷ denominator * denominator + Z.rem numerator denominator)
    with numerator by lia.
  done.
Qed.

Lemma divmod_spec_witness :
  exists quotient remainder,
    divmod Int64.min_int (-1) = Ok (quotient, remainder) /\
    Int64.add (Int64.mul quotient (-1)) remainder = Int64.min_int /\
    Z.abs remainder < Z.abs (-1) /\
    0 <= remainder * Int64.min_int.
Proof.
  apply (divmod_spec Int64.min_int (-1)).
  - unfold Int64.in_range, Int64.min_int, Int64.max_int. lia.
  - unfold Int64.in_range, Int64.min_int, Int64.max_int. lia.
  - lia.
Defined.

(** ** The worker *)

Lemma iteration_panic encode io read endOffset pos w m w' :
  iteration encode io read endOffset pos w = Done (Panic m) w' ->
  m = overReadMsg.
Proof.
  unfold iteration. destruct (read pos) as [chunk|e]; [|done].
  destruct (Z.of_nat (length chunk) =? 0); [done|].
  destruct (writeOutput io pos); [done|].
  destruct (tellInput io pos); [done|].
  destruct (_ =? endOffset); [done|].
  destruct (endOffset <? _); [|done]. by intros [= <- _].
Qed.

Lemma readLoop_panic encode io read endOffset fuel pos w m w' :
  readLoop fuel encode io read endOffset pos w = Some (Panic m, w') ->
  m = overReadMsg.
Proof.
  revert pos w. induction fuel as [|fuel IH]; intros pos w; [done|].
  cbn [readLoop].
  destruct (iteration encode io read endOffset pos w) as [pos1 w1|r w1] eqn:Hit.
  - apply IH.
  - intros [= -> ->]. by apply iteration_panic in Hit.
Qed.

(** X5: on a seekable input, where [Seek(0, io.SeekCurrent)] reports the
    cursor that each [Read] moves by the bytes it returns, a call of
    [compressPart] ends, whatever errors the system calls return and
    whatever bytes the reads deliver: within as many passes of the read
    loop as there are bytes between the start and the end of the segment,
    plus one, it returns a name, returns an error, or panics, and a panic
    carries the over-read message.  When it returns a name, the name is
    the part file's and the part file exists. *)
Theorem worker_always_returns EncodeAll io inputFile idx seg level :
  exists r part,
    compressPart EncodeAll io inputFile idx seg level = Some (r, part) /\
    (forall name, r = Ok name ->
       name = partName inputFile idx /\ is_Some part) /\
    (forall m, r = Panic m -> m = overReadMsg).
Proof.
  unfold compressPart.
  destruct (openInput io) as [read|e]; [|by eexists _, _].
  destruct (createOutput io); [by eexists _, _|].
  destruct (newEncoder io); [by eexists _, _|].
  destruct (readLoop_returns (EncodeAll level) io read seg.2
              (S (Z.to_nat (seg.2 - seekStart seg.1))) (seekStart seg.1) [])
    as [r [w Hrun]]; [lia|].
  rewrite Hrun. destruct r as [u|e|m]; eexists _, _; (split; [done|]);
    (split; [|try done]).
  - intros name [= <-]. eauto.
  - done.
  - done.
  - intros m' [= <-]. by apply readLoop_panic in Hrun.
Qed.

(** X6: on a plannable size, the worker of each planned segment of the
    unchanged file returns the part's name, and the part file holds the
    frames of non-empty chunks that, one after the other, are exactly the
    bytes of the segment. *)
Theorem worker_compresses_its_segment EncodeAll (X : list byte) threadCount segs
    (i : nat) seg inputFile level :
  Z.of_nat (length X) <= maxPlannable -> 1 <= threadCount ->
  divideFileIntoSegments (Z.of_nat (length X)) threadCount = Ok segs ->
  segs !! i = Some seg ->
  exists payload,
    compressPart EncodeAll (fileIO X) inputFile (Z.of_nat i) seg level
    = Some (Ok (partName inputFile (Z.of_nat i)), Some payload) /\
    framed (EncodeAll level) X seg payload.
Proof.
  intros HX HT Hplan Hseg.
  pose proof (plan_planned (Z.of_nat (length X)) threadCount ltac:(lia) HT
                segs i seg Hplan Hseg) as Hplanned.
  destruct (compressPart_file EncodeAll X inputFile (Z.of_nat i) seg level Hplanned)
    as (chunks & Hne & Hcat & Hrun).
  eexists. split; [exact Hrun|]. by exists chunks.
Qed.

Lemma worker_compresses_its_segment_witness :
  exists payload,
    compressPart storeEncodeAll (fileIO smallFile) "in.bin" (Z.of_nat 0) (0, 3) 3
    = Some (Ok (partName "in.bin" (Z.of_nat 0)), Some payload) /\
    framed (storeEncodeAll 3) smallFile (0, 3) payload.
Proof.
  apply (worker_compresses_its_segment storeEncodeAll smallFile 2
           [(0, 3); (3, 3)] 0 (0, 3) "in.bin" 3).
  - rewrite maxPlannable_val. cbn. lia.
  - lia.
  - reflexivity.
  - reflexivity.
Defined.

Lemma readLoop_truncated (EncodeAll : Z -> list byte -> list byte)
    (X : list byte) level e fuel pos w :
  0 <= pos -> Z.of_nat (length X) < e ->
  (Z.to_nat (e - pos) < fuel)%nat ->
  exists chunks, Forall (fun c => c <> []) chunks /\
    concat chunks = drop (Z.to_nat pos) X /\
    readLoop fuel (EncodeAll level) (fileIO X) (fileRead X) e pos w
    = Some (Ok (), w ++ concat (EncodeAll level <$> chunks)).
Proof.
  revert pos w. induction fuel as [|fuel IH]; intros pos w Hpos He Hfuel; [lia|].
  set (chunk := take (Z.to_nat oneMB) (drop (Z.to_nat pos) X)).
  assert (fileRead X pos = ReadBytes chunk) as Hrd by reflexivity.
  cbn [readLoop]. unfold iteration. rewrite Hrd.
  cbn [fileIO writeOutput tellInput].
  assert (Z.of_nat (length chunk)
          = Z.max 0 (Z.min oneMB (Z.of_nat (length X) - pos))) as Hlen.
  { subst chunk. rewrite length_take, length_drop, oneMB_val. lia. }
  destruct (Z.of_nat (length chunk) =? 0) eqn:E0.
  - apply Z.eqb_eq in E0. exists []. split; [constructor|].
    assert (chunk = []) as Hnil by (destruct chunk; [done|cbn in E0; lia]).
    split; [|by rewrite fmap_nil, concat_nil, app_nil_r].
    cbn. symmetry. apply drop_ge. rewrite oneMB_val in Hlen. lia.
  - apply Z.eqb_neq in E0.
    assert (pos + Z.of_nat (length chunk) <= Z.of_nat (length X)) as Hcur
      by (rewrite oneMB_val in Hlen; lia).
    destruct (_ =? e) eqn:E1; [apply Z.eqb_eq in E1; lia|].
    destruct (e <? _) eqn:E2; [apply Z.ltb_lt in E2; lia|].
    destruct (IH (pos + Z.of_nat (length chunk)) (w ++ EncodeAll level chunk))
      as (chunks & Hne & Hcat & Hrun); [lia|done|lia|].
    exists (chunk :: chunks). split.
    + constructor; [|done]. intros Hnil. rewrite Hnil in E0. cbn in E0. lia.
    + split.
      * cbn [concat]. rewrite Hcat.
        replace (drop (Z.to_nat (pos + Z.of_nat (length chunk))) X)
          with (drop (length chunk) (drop (Z.to_nat pos) X))
          by (rewrite drop_drop; f_equal; lia).
        subst chunk.
        destruct (decide (Z.to_nat oneMB <= length (drop (Z.to_nat pos) X))%nat).
        -- rewrite length_take, Nat.min_l by lia. apply take_drop.
        -- rewrite take_ge by lia. by rewrite drop_all, app_nil_r.
      * rewrite Hrun. cbn. by rewrite app_assoc.
Qed.

(** X7: when the file is shorter than the segment's end (it shrank after
    planning), the worker reports nothing: it returns the part's name and
    a nil error, and the part file holds the frames of the bytes from the
    segment's start to the end of the file. *)
Theorem worker_truncated_file_succeeds EncodeAll (X : list byte) inputFile idx seg
    level :
  0 <= seg.1 -> Z.of_nat (length X) < seg.2 ->
  exists chunks, Forall (fun c => c <> []) chunks /\
    concat chunks = drop (Z.to_nat seg.1) X /\
    compressPart EncodeAll (fileIO X) inputFile idx seg level
    = Some (Ok (partName inputFile idx),
            Some (concat (EncodeAll level <$> chunks))).
Proof.
  intros Hs He. unfold compressPart.
  cbn [fileIO openInput createOutput newEncoder].
  assert (seekStart seg.1 = seg.1) as ->.
  { unfold seekStart. destruct (seg.1 <? 0) eqn:E; [apply Z.ltb_lt in E; lia|done]. }
  destruct (readLoop_truncated EncodeAll X level seg.2
              (S (Z.to_nat (seg.2 - seg.1))) seg.1 [])
    as (chunks & Hne & Hcat & Hrun); [done|done|lia|].
  rewrite Hrun. by exists chunks.
Qed.

Lemma worker_truncated_file_succeeds_witness :
  exists chunks, Forall (fun c => c <> []) chunks /\
    concat chunks = drop (Z.to_nat (1, 1048576).1) smallFile /\
    compressPart storeEncodeAll (fileIO smallFile) "in.bin" 0 (1, 1048576) 3
    = Some (Ok (partName "in.bin" 0),
            Some (concat (storeEncodeAll 3 <$> chunks))).
Proof.
  apply (worker_truncated_file_succeeds storeEncodeAll smallFile "in.bin" 0
           (1, 1048576) 3).
  - cbn. lia.
  - cbn. lia.
Defined.

(** X8: when a read fails, at whatever cursor the loop has reached, the
    worker returns the error wrapped as "failed to read input", and the
    part file stays behind with what was written before. *)
Theorem worker_read_error_keeps_part EncodeAll io read inputFile idx seg level
    (k : nat) pos written e :
  openInput io = Opened read -> createOutput io = None -> newEncoder io = None ->
  reaches k (EncodeAll level) io read seg.2 (seekStart seg.1) [] pos written ->
  read pos = ReadFailed e ->
  compressPart EncodeAll io inputFile idx seg level
  = Some (Error ("failed to read input: " +:+ e), Some written).
Proof.
  intros Hopen Hcreate Henc Hreach Hread.
  unfold compressPart. rewrite Hopen, Hcreate, Henc.
  destruct (reaches_bounds _ _ _ _ _ _ _ _ _ Hreach) as [Hle Hlt].
  assert (exists fuel, S (Z.to_nat (seg.2 - seekStart seg.1)) = (k + S fuel)%nat)
    as [fuel ->].
  { exists (Z.to_nat (seg.2 - seekStart seg.1) - k)%nat.
    destruct k; [lia|]. specialize (Hlt ltac:(done)). lia. }
  rewrite (readLoop_from_reached _ _ _ _ _ _ _ _ _ _ Hreach).
  cbn [readLoop]. unfold iteration. by rewrite Hread.
Qed.

Lemma worker_read_error_keeps_part_witness :
  compressPart storeEncodeAll brokenIO "in.bin" 1 (3, 3) 3
  = Some (Error ("failed to read input: " +:+ "input/output error"), Some []).
Proof.
  apply (worker_read_error_keeps_part storeEncodeAll brokenIO
           (fun _ => ReadFailed "input/output error") "in.bin" 1 (3, 3) 3 0 3 []).
  - reflexivity.
  - reflexivity.
  - reflexivity.
  - split; reflexivity.
  - reflexivity.
Defined.

(** ** File names *)

(** X9: the name a worker gives its part file carries the segment index:
    the reassembler reads the index back from the name, and the parts of
    two different segments of one input have different names. *)
Theorem part_name_carries_index inputFile i j :
  0 <= i <= Int64.max_int -> 0 <= j <= Int64.max_int ->
  hasChar "/" (Base inputFile) = false ->
  parseIndex (partName inputFile i) = Ok i /\
  (partName inputFile i = partName inputFile j -> i = j).
Proof.
  intros Hi Hj Hbase. split; [by apply parseIndex_partName|].
  by apply partName_inj.
Qed.

Lemma part_name_carries_index_witness :
  parseIndex (partName "dir/in-put.bin" 12) = Ok 12 /\
  (partName "dir/in-put.bin" 12 = partName "dir/in-put.bin" 7 -> 12 = 7).
Proof.
  apply (part_name_carries_index "dir/in-put.bin" 12 7).
  - unfold Int64.max_int. lia.
  - unfold Int64.max_int. lia.
  - reflexivity.
Defined.

(** ** The reassembler *)

Lemma parseAll_bad_name (names : list string) name :
  name ∈ names -> (forall index, parseIndex name <> Ok index) ->
  exists e, parseAll names = Error e.
Proof.
  intros Hin Hbad. induction names as [|n names IH]; [by apply elem_of_nil in Hin|].
  cbn [parseAll]. unfold parseIndex in *.
  destruct (splitFirst "-" (Base n)) as [[p0 rest]|] eqn:Hsplit; [|eauto].
  destruct (Atoi p0) as [index|] eqn:Hatoi; [|eauto].
  apply elem_of_cons in Hin as [->|Hin].
  - rewrite Hsplit, Hatoi in Hbad. by destruct (Hbad index).
  - destruct (IH Hin) as [e ->]. eauto.
Qed.

(** X10: when one of the names does not carry an index (no [-] in its
    base name, or no number in front of it), the reassembler returns an
    error before it creates the destination: no file is touched. *)
Theorem reassembly_rejects_bad_name sortSlice cio (names : list string) out
    (fs : gmap string (list byte)) name :
  name ∈ names -> (forall index, parseIndex name <> Ok index) ->
  exists e, concatenateFiles sortSlice cio names out fs = (Error e, fs).
Proof.
  intros Hin Hbad. unfold concatenateFiles.
  destruct (parseAll_bad_name names name Hin Hbad) as [e ->]. eauto.
Qed.

Lemma reassembly_rejects_bad_name_witness :
  exists e,
    concatenateFiles mergeSortSlice quietConcat
      ["0-in.bin-output-segment.part0"; "notes.txt"] "out.zst"
      ({[ "0-in.bin-output-segment.part0" := [x01] ]} : gmap string (list byte))
    = (Error e, {[ "0-in.bin-output-segment.part0" := [x01] ]}).
Proof.
  apply (reassembly_rejects_bad_name mergeSortSlice quietConcat
           ["0-in.bin-output-segment.part0"; "notes.txt"] "out.zst" _ "notes.txt").
  - right. left.
  - intros index. vm_compute. discriminate.
Defined.




(** X12: a reassembly without error touches the destination and the part
    files only: every part file is removed, and every other file is as it
    was. *)
Theorem reassembly_touches_only_its_files
    (sortSlice : (FileWithIndex -> FileWithIndex -> bool) ->
                 list FileWithIndex -> list FileWithIndex)
    (cio : ConcatIO) (out : string) (fs : gmap string (list byte))
    (parts : list (FileWithIndex * list byte)) (names : list string) :
  (forall l, sortSlice lessIndex l ≡ₚ l) ->
  (forall l, Sorted (sortedBy lessIndex) (sortSlice lessIndex l)) ->
  StronglySorted ascending (fst <$> parts) ->
  Forall (fun part => named part.1) parts ->
  Forall (stored cio out fs) parts ->
  createDest cio = None ->
  names ≡ₚ Name <$> (fst <$> parts) ->
  (forall name, name ∈ names ->
     (concatenateFiles sortSlice cio names out fs).2 !! name = None) /\
  (forall k, k <> out -> k ∉ names ->
     (concatenateFiles sortSlice cio names out fs).2 !! k = fs !! k).
Proof.
  intros HP HS Hasc Hnamed Hstored Hcreate Hnames.
  rewrite (concatenateFiles_stored sortSlice HP HS cio out fs parts Hasc Hnamed names)
    by done.
  cbn [snd]. split.
  - intros name Hin. rewrite Hnames in Hin.
    assert (name <> out) as Hne.
    { apply list_elem_of_fmap in Hin as (f & -> & Hf).
      apply list_elem_of_fmap in Hf as ([g p] & -> & Hgp).
      rewrite Forall_forall in Hstored. by destruct (Hstored _ Hgp). }
    rewrite lookup_insert_ne by done.
    by rewrite removeAll_lookup, decide_True.
  - intros k Hk Hnin. rewrite lookup_insert_ne by done.
    rewrite removeAll_lookup, decide_False; [done|]. by rewrite <-Hnames.
Qed.

Lemma reassembly_touches_only_its_files_witness :
  let part0 := {| Index := 0; Name := "0-in.bin-output-segment.part0" |} in
  let part1 := {| Index := 1; Name := "1-in.bin-output-segment.part1" |} in
  let fs : gmap string (list byte) :=
    {[ Name part0 := [x0a; x0b]; Name part1 := [x0c]; "in.bin" := [x01] ]} in
  let names := [Name part1; Name part0] in
  (forall name, name ∈ names ->
     (concatenateFiles mergeSortSlice quietConcat names "out.zst" fs).2 !! name
     = None) /\
  (forall k, k <> "out.zst" -> k ∉ names ->
     (concatenateFiles mergeSortSlice quietConcat names "out.zst" fs).2 !! k
     = fs !! k).
Proof.
  intros part0 part1 fs names.
  apply (reassembly_touches_only_its_files mergeSortSlice quietConcat "out.zst" fs
           [(part0, [x0a; x0b]); (part1, [x0c])] names).
  - apply mergeSortSlice_Permutation.
  - apply mergeSortSlice_Sorted.
  - repeat constructor.
  - repeat constructor; vm_compute; reflexivity.
  - repeat constructor; vm_compute; congruence.
  - reflexivity.
  - apply perm_swap.
Defined.

(** ** The orchestrator *)


Lemma dash_not_in_out (i : nat) : "out.zst" <> partName "in.bin" (Z.of_nat i).
Proof.
  intros Heq.
  assert (hasChar "-" "out.zst" = hasChar "-" (partName "in.bin" (Z.of_nat i)))
    as Hdash by (by rewrite <-Heq).
  unfold partName in Hdash. rewrite !hasChar_app in Hdash.
  cbn in Hdash. by rewrite orb_true_r in Hdash.
Qed.

Lemma store_frames level (chunks : list (list byte)) :
  Forall (fun c => c <> []) chunks ->
  storeDecode (concat (storeEncodeAll level <$> chunks)) = Ok (concat chunks).
Proof.
  intros _. unfold storeDecode. do 2 f_equal.
  induction chunks as [|c chunks IH]; [done|]. cbn. by f_equal.
Qed.


Section Schedules.
Variable EncodeAll : Z -> list byte -> list byte.
Variable sortSlice :
  (FileWithIndex -> FileWithIndex -> bool) -> list FileWithIndex ->
  list FileWithIndex.
Hypothesis sortSlice_contract : sortContract sortSlice.
Variable io : nat -> PartIO.
Variable cio : ConcatIO.
Variable fs : gmap string (list byte).
Variable inputFile outputFile : string.
Variable level numThreads : Z.
Variable offset : list Segment.

Hypothesis planned_ok : calculateSegment fs inputFile numThreads = Ok offset.
Hypothesis threads : 1 <= numThreads <= Int64.max_int.
Hypothesis base_name : hasChar "/" (Base inputFile) = false.
Hypothesis all_succeeded : forall i : nat, Z.of_nat i < numThreads ->
  succeeded (worker EncodeAll io inputFile level offset i).

(** X14: with [sort.Slice] taken by its contract, when the input's base
    name holds no slash, the destination is not one of the part files,
    every worker succeeds and the reassembler, which sorts by
    [lessIndex], meets no error, the outcome of the pipeline, files and
    all, is the same for every order in which the workers finish. *)
Theorem pipeline_ignores_completion_order (completed completed' : list nat) :
  completed ≡ₚ seq 0 (Z.to_nat numThreads) ->
  completed' ≡ₚ seq 0 (Z.to_nat numThreads) ->
  (forall i : nat, Z.of_nat i < numThreads ->
     outputFile <> partName inputFile (Z.of_nat i)) ->
  createDest cio = None ->
  (forall i : nat, Z.of_nat i < numThreads ->
     copyPart cio (partName inputFile (Z.of_nat i)) = None) ->
  compressFileBlock EncodeAll sortSlice io cio fs inputFile outputFile level
    numThreads completed
  = compressFileBlock EncodeAll sortSlice io cio fs inputFile outputFile level
      numThreads completed'.
Proof.
  intros Hc Hc' Hout Hcreate Hcopy.
  destruct (sortContract_lessIndex sortSlice sortSlice_contract)
    as [sortSlice_Permutation sortSlice_Sorted].
  assert (forall l, l ≡ₚ seq 0 (Z.to_nat numThreads) ->
            exists fs',
              compressFileBlock EncodeAll sortSlice io cio fs inputFile outputFile
                level numThreads l
              = Some {| ret := Ok (); files := fs'; stdout := [] |} /\
              forall k, fs' !! k =
                if decide (k = outputFile)
                then Some (concat (payloads EncodeAll io inputFile level offset
                                     (Z.to_nat numThreads)))
                else if decide (k ∈ (fun i : nat => partName inputFile (Z.of_nat i))
                                      <$> seq 0 (Z.to_nat numThreads))
                     then None else fs !! k) as Hrun.
  { intros l Hl.
    destruct (compressFileBlock_succeeds EncodeAll sortSlice sortSlice_Permutation
                sortSlice_Sorted io cio inputFile outputFile level offset
                (Z.to_nat numThreads) l ltac:(lia) base_name Hl)
      with (fs := fs) (numThreads := numThreads)
      as (fs' & Hrun & Hdest & Hparts & Hother).
    - intros i Hi. apply all_succeeded. lia.
    - done.
    - lia.
    - intros i Hi. apply Hout. lia.
    - done.
    - intros i Hi. apply Hcopy. lia.
    - exists fs'. split; [done|]. intros k.
      destruct (decide (k = outputFile)) as [->|Hk]; [done|].
      destruct (decide (k ∈ _)) as [Hin|Hnin].
      + apply list_elem_of_fmap in Hin as (i & -> & Hi%elem_of_seq).
        apply Hparts. lia.
      + apply Hother; [done|]. intros i Hi ->. apply Hnin.
        apply list_elem_of_fmap. exists i. split; [done|]. apply elem_of_seq. lia. }
  destruct (Hrun completed Hc) as (fs1 & -> & H1).
  destruct (Hrun completed' Hc') as (fs2 & -> & H2).
  do 2 f_equal. apply map_eq. intros k. by rewrite H1, H2.
Qed.

(** X15: an error of the reassembler is dropped.  When every worker
    succeeds but the destination cannot be created, the pipeline still
    returns nil; every part file is left behind with its payload, and the
    destination is as it was. *)
Theorem pipeline_drops_reassembly_error (completed : list nat) e :
  completed ≡ₚ seq 0 (Z.to_nat numThreads) ->
  (forall i : nat, Z.of_nat i < numThreads ->
     outputFile <> partName inputFile (Z.of_nat i)) ->
  createDest cio = Some e ->
  exists fs',
    compressFileBlock EncodeAll sortSlice io cio fs inputFile outputFile level
      numThreads completed
    = Some {| ret := Ok (); files := fs'; stdout := [] |} /\
    fs' !! outputFile = fs !! outputFile /\
    (forall i : nat, Z.of_nat i < numThreads ->
       fs' !! partName inputFile (Z.of_nat i)
       = Some (payloadOf (worker EncodeAll io inputFile level offset i))).
Proof.
  intros Hc Hout Hcreate.
  assert (forall i, i ∈ completed -> (i < Z.to_nat numThreads)%nat) as Hlt
    by (intros i; rewrite Hc, elem_of_seq; lia).
  assert (forall i, (i < Z.to_nat numThreads)%nat ->
            succeeded (worker EncodeAll io inputFile level offset i)) as Hok
    by (intros i Hi; apply all_succeeded; lia).
  unfold compressFileBlock. rewrite planned_ok.
  destruct (numThreads <? 0) eqn:E; [apply Z.ltb_lt in E; lia|]. clear E.
  rewrite (runWorkers_returned EncodeAll io inputFile level offset)
    by (apply Forall_forall; intros i Hi; by apply succeeded_returned, Hok, Hlt).
  rewrite omap_failure_succeeded
    by (apply Forall_forall; intros i Hi; by apply Hok, Hlt).
  cbn [app].
  assert (forall names,
            (concatenateFiles sortSlice cio names outputFile
               (foldl (effect EncodeAll io inputFile level offset) fs completed)).2
            = foldl (effect EncodeAll io inputFile level offset) fs completed)
    as Hsnd.
  { intros names. unfold concatenateFiles. rewrite Hcreate.
    by destruct (parseAll names). }
  destruct (concatenateFiles _ _ _ _ _) as [r fs'] eqn:Hcat.
  specialize (Hsnd (sent EncodeAll io inputFile level offset <$> completed)).
  rewrite Hcat in Hsnd. cbn in Hsnd. subst fs'.
  eexists. split; [done|]. split.
  - apply (files_after_other EncodeAll io inputFile level offset).
    intros i Hi. apply Hout. specialize (Hlt i Hi). lia.
  - intros i Hi.
    apply (files_after_part EncodeAll io inputFile level offset (Z.to_nat numThreads));
      [lia|done|done|done|].
    rewrite Hc. apply elem_of_seq. lia.
Qed.
End Schedules.

Lemma pipeline_ignores_completion_order_witness :
  compressFileBlock storeEncodeAll mergeSortSlice (fun _ => fileIO smallFile)
    quietConcat smallFiles "in.bin" "out.zst" 3 2 [0; 1]%nat
  = compressFileBlock storeEncodeAll mergeSortSlice (fun _ => fileIO smallFile)
      quietConcat smallFiles "in.bin" "out.zst" 3 2 [1; 0]%nat.
Proof.
  apply (pipeline_ignores_completion_order storeEncodeAll mergeSortSlice
           mergeSortSlice_contract
           (fun _ => fileIO smallFile) quietConcat smallFiles "in.bin" "out.zst"
           3 2 [(0, 3); (3, 3)]).
  - vm_compute. reflexivity.
  - unfold Int64.max_int. lia.
  - reflexivity.
  - intros [|[|i]] Hi; [eexists _, _; vm_compute; reflexivity..|lia].
  - reflexivity.
  - apply perm_swap.
  - intros i _. apply dash_not_in_out.
  - reflexivity.
  - reflexivity.
Defined.

Lemma pipeline_drops_reassembly_error_witness :
  exists fs',
    compressFileBlock storeEncodeAll mergeSortSlice (fun _ => fileIO smallFile)
      deniedConcat smallFiles "in.bin" "out.zst" 3 2 [1; 0]%nat
    = Some {| ret := Ok (); files := fs'; stdout := [] |} /\
    fs' !! "out.zst" = smallFiles !! "out.zst" /\
    (forall i : nat, Z.of_nat i < 2 ->
       fs' !! partName "in.bin" (Z.of_nat i)
       = Some (payloadOf (worker storeEncodeAll (fun _ => fileIO smallFile)
                            "in.bin" 3 [(0, 3); (3, 3)] i))).
Proof.
  apply (pipeline_drops_reassembly_error storeEncodeAll mergeSortSlice
           (fun _ => fileIO smallFile) deniedConcat smallFiles "in.bin" "out.zst"
           3 2 [(0, 3); (3, 3)]) with (e := "permission denied").
  - vm_compute. reflexivity.
  - unfold Int64.max_int. lia.
  - reflexivity.
  - intros [|[|i]] Hi; [eexists _, _; vm_compute; reflexivity..|lia].
  - apply perm_swap.
  - intros i _. apply dash_not_in_out.
  - reflexivity.
Defined.

Lemma runWorkers_never_errors EncodeAll io inputFile level offset
    (completed : list nat) (fs : gmap string (list byte)) names errs e fs' :
  runWorkers EncodeAll io inputFile level offset completed fs names errs
  <> Some (Error e, fs').
Proof.
  revert fs names errs.
  induction completed as [|i rest IH]; intros fs names errs; cbn [runWorkers];
    [done|].
  destruct (worker EncodeAll io inputFile level offset i) as [[r part]|]; [|done].
  destruct r; [apply IH|apply IH|done].
Qed.

(** X16: once the input could be planned, the pipeline never returns an
    error to its caller: it returns nil or it panics, whatever the
    workers and the reassembler meet. *)
Theorem pipeline_never_returns_error EncodeAll sortSlice io cio
    (fs : gmap string (list byte)) inputFile outputFile level numThreads offset
    (completed : list nat) outcome :
  calculateSegment fs inputFile numThreads = Ok offset ->
  compressFileBlock EncodeAll sortSlice io cio fs inputFile outputFile level
    numThreads completed = Some outcome ->
  ret outcome = Ok () \/ exists m, ret outcome = Panic m.
Proof.
  intros Hplan. unfold compressFileBlock. rewrite Hplan.
  destruct (numThreads <? 0); [intros [= <-]; right; by eexists|].
  destruct (runWorkers _ _ _ _ _ _ _ _ _) as [[[[outputFiles errs]|e|m] fs']|] eqn:Hrun;
    [| |intros [= <-]; right; by eexists|done].
  - destruct errs as [|err errs].
    + destruct (concatenateFiles _ _ _ _ _). intros [= <-]. by left.
    + intros [= <-]. right. by eexists.
  - by apply runWorkers_never_errors in Hrun.
Qed.

Lemma pipeline_never_returns_error_witness :
  ret {| ret := Panic panicMsg;
         files := <["1-in.bin-output-segment.part1" := []]>
                    (<["0-in.bin-output-segment.part0" := smallFile]> smallFiles);
         stdout := ["failed to read input: input/output error"] |} = Ok () \/
  exists m,
    ret {| ret := Panic panicMsg;
           files := <["1-in.bin-output-segment.part1" := []]>
                      (<["0-in.bin-output-segment.part0" := smallFile]> smallFiles);
           stdout := ["failed to read input: input/output error"] |} = Panic m.
Proof.
  apply (pipeline_never_returns_error storeEncodeAll mergeSortSlice secondBroken
           quietConcat smallFiles "in.bin" "out.zst" 3 2 [(0, 3); (3, 3)]
           [0; 1]%nat).
  - vm_compute. reflexivity.
  - vm_compute. reflexivity.
Defined.

(** ** The in-memory block mode *)

Lemma partRange_exact fileSize numThreads i :
  0 <= fileSize <= Int64.max_int -> 1 <= numThreads -> 0 <= i < numThreads ->
  InMemory.partRange fileSize numThreads i
  = (i * (fileSize / numThreads),
     if i =? numThreads - 1 then fileSize else (i + 1) * (fileSize / numThreads)).
Proof.
  intros HF HT Hi. unfold InMemory.partRange, Int64.quot, Int64.mul, Int64.add.
  rewrite Z.quot_div_nonneg by lia.
  pose proof (Z.div_pos fileSize numThreads ltac:(lia) ltac:(lia)) as Hp.
  pose proof (Z.mul_div_le fileSize numThreads ltac:(lia)) as Hle.
  set (p := fileSize / numThreads) in *.
  assert (i * p <= (numThreads - 1) * p) by (apply Z.mul_le_mono_nonneg_r; lia).
  assert (0 <= i * p) by (apply Z.mul_nonneg_nonneg; lia).
  unfold Int64.max_int in HF.
  rewrite (wrap_in_range p)
    by (unfold Int64.in_range, Int64.min_int, Int64.max_int; lia).
  rewrite (wrap_in_range (i * p))
    by (unfold Int64.in_range, Int64.min_int, Int64.max_int; lia).
  rewrite (wrap_in_range (i * p + p))
    by (unfold Int64.in_range, Int64.min_int, Int64.max_int; lia).
  f_equal. destruct (i =? numThreads - 1); [done|lia].
Qed.

Lemma partRanges_chain fileSize numThreads (a n : nat) :
  0 <= fileSize <= Int64.max_int -> 1 <= numThreads ->
  Z.of_nat a + Z.of_nat n = numThreads -> (0 < n)%nat ->
  let ranges := (fun i : nat => InMemory.partRange fileSize numThreads (Z.of_nat i))
                  <$> seq a n in
  contiguous (Z.of_nat a * (fileSize / numThreads)) ranges /\
  Forall well_formed ranges /\
  last_end (Z.of_nat a * (fileSize / numThreads)) ranges = fileSize.
Proof.
  intros HF HT. revert a. induction n as [|n IH]; intros a Han Hn; [lia|].
  cbn zeta. cbn [seq fmap list_fmap].
  rewrite (partRange_exact fileSize numThreads (Z.of_nat a)) by lia.
  pose proof (Z.div_pos fileSize numThreads ltac:(lia) ltac:(lia)) as Hp.
  pose proof (Z.mul_div_le fileSize numThreads ltac:(lia)) as Hle.
  set (p := fileSize / numThreads) in *.
  rewrite last_end_cons.
  destruct (Z.of_nat a =? numThreads - 1) eqn:E.
  - apply Z.eqb_eq in E. assert (n = 0%nat) as -> by lia. cbn [seq fmap list_fmap].
    split; [done|]. split; [|done].
    constructor; [|constructor]. unfold well_formed. cbn.
    assert (Z.of_nat a * p <= numThreads * p) by (apply Z.mul_le_mono_nonneg_r; lia).
    lia.
  - apply Z.eqb_neq in E.
    destruct (IH (S a) ltac:(lia) ltac:(lia)) as (Hc & Hw & Hl).
    cbn zeta in Hc, Hw, Hl. cbn [fmap list_fmap] in Hc, Hw, Hl.
    replace (Z.of_nat (S a)) with (Z.of_nat a + 1) in Hc, Hl by lia.
    split; [done|]. split; [|done].
    constructor; [|done]. unfold well_formed. cbn. lia.
Qed.

Lemma partRanges_partition fileSize numThreads :
  0 <= fileSize <= Int64.max_int -> 1 <= numThreads ->
  partitions fileSize (InMemory.partRanges fileSize numThreads) /\
  Forall (within fileSize) (InMemory.partRanges fileSize numThreads).
Proof.
  intros HF HT.
  destruct (partRanges_chain fileSize numThreads 0 (Z.to_nat numThreads) HF HT
              ltac:(lia) ltac:(lia)) as (Hc & Hw & Hl).
  cbn zeta in Hc, Hw, Hl. change (Z.of_nat 0 * _) with 0 in Hc, Hl.
  fold (InMemory.partRanges fileSize numThreads) in Hc, Hw, Hl.
  split.
  - split; [done|]. split; [done|]. split; [done|].
    split; [by eapply contiguous_disjoint|].
    intros x. by rewrite (contiguous_covers 0 _ x Hc Hw), Hl.
  - destruct (contiguous_start_le 0 _ Hc Hw) as [_ Hall].
    apply Forall_forall. intros seg Hin. destruct (Hall seg Hin) as [H0 Hend].
    rewrite Forall_forall in Hw. specialize (Hw seg Hin).
    unfold within, well_formed in *. lia.
Qed.

(** X17: the equal shares of the in-memory block mode partition the file,
    for every size an [int64] holds and every [numThreads >= 1]: no
    product or sum wraps around, the ranges are contiguous from 0 to
    [fileSize], disjoint, and cover exactly [[0, fileSize)]. *)
Theorem equal_shares_partition_file fileSize numThreads :
  0 <= fileSize <= Int64.max_int -> 1 <= numThreads ->
  partitions fileSize (InMemory.partRanges fileSize numThreads) /\
  Forall (within fileSize) (InMemory.partRanges fileSize numThreads) /\
  Z.of_nat (length (InMemory.partRanges fileSize numThreads)) = numThreads.
Proof.
  intros HF HT. destruct (partRanges_partition fileSize numThreads HF HT) as [Hp Hw].
  split; [done|]. split; [done|].
  unfold InMemory.partRanges. rewrite length_fmap, length_seq. lia.
Qed.

Lemma equal_shares_partition_file_witness :
  partitions Int64.max_int (InMemory.partRanges Int64.max_int 3) /\
  Forall (within Int64.max_int) (InMemory.partRanges Int64.max_int 3) /\
  Z.of_nat (length (InMemory.partRanges Int64.max_int 3)) = 3.
Proof.
  apply (equal_shares_partition_file Int64.max_int 3).
  - unfold Int64.max_int. lia.
  - lia.
Defined.

Lemma limitedRead_file (X : list byte) pos N :
  InMemory.limitedRead (InMemory.fileReadN X) (pos, N)
  = if N <=? 0 then (ReadBytes [], (pos, N))
    else
      let chunk := take (Z.to_nat (if N <? oneMB then N else oneMB))
                     (drop (Z.to_nat pos) X) in
      (ReadBytes chunk,
       (pos + Z.of_nat (length chunk), Int64.sub N (Z.of_nat (length chunk)))).
Proof. reflexivity. Qed.

(** The limited reader asks the handle for bytes before the end of the
    limit only. *)
Lemma limitedRead_within (X : list byte) (readN : Z -> Z -> ReadResult) pos N :
  (forall m, 0 < m -> pos + m <= pos + N ->
     readN pos m = InMemory.fileReadN X pos m) ->
  InMemory.limitedRead readN (pos, N)
  = InMemory.limitedRead (InMemory.fileReadN X) (pos, N).
Proof.
  intros Hread. unfold InMemory.limitedRead.
  destruct (N <=? 0) eqn:EN; [done|]. apply Z.leb_gt in EN.
  rewrite Hread; [done| |]; rewrite oneMB_val;
    destruct (N <? 1048576) eqn:E; [apply Z.ltb_lt in E|apply Z.ltb_ge in E|
                                    apply Z.ltb_lt in E|apply Z.ltb_ge in E]; lia.
Qed.

Lemma segmentLoop_limited (encode : list byte -> list byte) (X : list byte)
    (readN : Z -> Z -> ReadResult) fuel k pos N w :
  0 <= pos -> N <= Int64.max_int -> (Z.to_nat N < fuel)%nat ->
  (forall p m, pos <= p -> 0 < m -> p + m <= pos + N ->
     readN p m = InMemory.fileReadN X p m) ->
  exists chunks,
    Forall (fun c => c <> [] /\ Z.of_nat (length c) <= oneMB) chunks /\
    concat chunks = take (Z.to_nat N) (drop (Z.to_nat pos) X) /\
    InMemory.segmentLoop (Z * Z) (InMemory.limitedRead readN)
      encode (fun _ => None) fuel k (pos, N) w
    = Some (Ok (), w ++ concat (encode <$> chunks)).
Proof.
  revert k pos N w.
  induction fuel as [|fuel IH]; intros k pos N w Hpos HN Hfuel Hread; [lia|].
  cbn [InMemory.segmentLoop].
  rewrite (limitedRead_within X) by (intros m ? ?; apply Hread; lia).
  rewrite limitedRead_file.
  destruct (N <=? 0) eqn:EN.
  { apply Z.leb_le in EN. cbn. exists []. split; [constructor|].
    replace (Z.to_nat N) with 0%nat by lia. split; [done|].
    by rewrite app_nil_r. }
  apply Z.leb_gt in EN. cbv zeta.
  set (m := if N <? oneMB then N else oneMB).
  assert (0 < m <= oneMB /\ m <= N) as Hm.
  { subst m. rewrite oneMB_val.
    destruct (N <? 1048576) eqn:E; [apply Z.ltb_lt in E|apply Z.ltb_ge in E]; lia. }
  set (D := drop (Z.to_nat pos) X).
  set (chunk := take (Z.to_nat m) D).
  assert (Z.of_nat (length chunk) = Z.min m (Z.of_nat (length D))) as Hlen
    by (subst chunk; rewrite length_take; lia).
  destruct (Z.eq_dec (Z.of_nat (length chunk)) 0) as [E0|E0].
  - rewrite (proj2 (Z.eqb_eq _ _) E0). exists []. split; [constructor|].
    assert (D = []) as HD by (destruct D; [done|cbn in Hlen; lia]).
    rewrite HD, take_nil. split; [done|]. cbn. by rewrite app_nil_r.
  - rewrite (proj2 (Z.eqb_neq _ _) E0).
    assert (Int64.sub N (Z.of_nat (length chunk)) = N - Z.of_nat (length chunk)) as ->.
    { apply wrap_in_range. unfold Int64.in_range, Int64.min_int, Int64.max_int in *.
      lia. }
    destruct (IH (S k) (pos + Z.of_nat (length chunk)) (N - Z.of_nat (length chunk))
                (w ++ encode chunk)) as (chunks & Hall & Hcat & Hrun);
      [lia|lia|lia|intros p m' ? ? ?; apply Hread; lia|].
    exists (chunk :: chunks). split; [|split].
    + constructor; [|done]. split; [|lia]. intros Hnil. by rewrite Hnil in E0.
    + cbn [concat]. rewrite Hcat.
      replace (drop (Z.to_nat (pos + Z.of_nat (length chunk))) X)
        with (drop (length chunk) D)
        by (subst D; rewrite drop_drop; f_equal; lia).
      replace (Z.to_nat N)
        with (length chunk + Z.to_nat (N - Z.of_nat (length chunk)))%nat by lia.
      rewrite <-take_take_drop. f_equal.
      subst chunk. rewrite length_take.
      destruct (Nat.min_spec (Z.to_nat m) (length D)) as [[? ->]|[? ->]]; [done|].
      by rewrite !take_ge by lia.
    + rewrite Hrun. cbn. by rewrite app_assoc.
Qed.

Lemma segmentOf_within
    (EncodeAll : Z -> list byte -> list byte) (X : list byte)
    (readN : Z -> Z -> ReadResult) (level numThreads : Z) (i : nat) :
  Z.of_nat (length X) <= Int64.max_int -> 1 <= numThreads ->
  Z.of_nat i < numThreads ->
  InMemory.answersWithin X
    (InMemory.partRange (Z.of_nat (length X)) numThreads (Z.of_nat i)) readN ->
  exists chunks,
    Forall (fun c => c <> [] /\ Z.of_nat (length c) <= oneMB) chunks /\
    concat chunks
    = slice (InMemory.partRange (Z.of_nat (length X)) numThreads (Z.of_nat i)).1
        (InMemory.partRange (Z.of_nat (length X)) numThreads (Z.of_nat i)).2 X /\
    InMemory.segmentOf EncodeAll readN (Z.of_nat (length X)) level numThreads i
    = Some (Ok (), concat (EncodeAll level <$> chunks)).
Proof.
  intros HX HT Hi Hread. unfold InMemory.segmentOf, InMemory.compressSegment.
  unfold InMemory.answersWithin in Hread.
  destruct (partRanges_partition (Z.of_nat (length X)) numThreads
              ltac:(lia) HT) as [_ Hwithin].
  rewrite Forall_forall in Hwithin.
  assert (within (Z.of_nat (length X))
            (InMemory.partRange (Z.of_nat (length X)) numThreads (Z.of_nat i)))
    as (Hs & Hse & He).
  { apply Hwithin. unfold InMemory.partRanges. apply list_elem_of_fmap.
    exists i. split; [done|]. apply elem_of_seq. lia. }
  set (range := InMemory.partRange _ _ _) in *.
  assert (Int64.sub range.2 range.1 = range.2 - range.1) as ->.
  { apply wrap_in_range. unfold Int64.in_range, Int64.min_int, Int64.max_int in *.
    lia. }
  destruct (segmentLoop_limited (EncodeAll level) X readN
              (S (Z.to_nat (range.2 - range.1))) 0 range.1 (range.2 - range.1) [])
    as (chunks & Hall & Hcat & Hrun);
    [done|lia|lia|intros p m ? ? ?; apply Hread; lia|].
  exists chunks. split; [done|]. split; [done|]. by rewrite Hrun.
Qed.

Lemma segmentData_file
    (EncodeAll : Z -> list byte -> list byte) (X : list byte)
    (level numThreads : Z) (i : nat) :
  Z.of_nat (length X) <= Int64.max_int -> 1 <= numThreads ->
  Z.of_nat i < numThreads ->
  exists chunks,
    Forall (fun c => c <> [] /\ Z.of_nat (length c) <= oneMB) chunks /\
    concat chunks
    = slice (InMemory.partRange (Z.of_nat (length X)) numThreads (Z.of_nat i)).1
        (InMemory.partRange (Z.of_nat (length X)) numThreads (Z.of_nat i)).2 X /\
    InMemory.segmentData EncodeAll X level numThreads i
    = Some (Ok (), concat (EncodeAll level <$> chunks)).
Proof.
  intros HX HT Hi. unfold InMemory.segmentData.
  by apply segmentOf_within; [..|intros pos m _ _ _].
Qed.

(** X18: through the [io.LimitReader], [compressSegment] compresses
    exactly its byte range of the file and asks the handle for no byte
    beyond it.  For a file with content [X] and every handle that
    answers like the file whenever it is asked for bytes inside the
    range of goroutine [i], whatever it answers to any other request:
    [compressSegment] returns nil, and what it wrote is the frames of
    non-empty chunks of at most 1 MiB that, one after the other, are the
    bytes of the range. *)
Theorem compressSegment_compresses_its_range
    (EncodeAll : Z -> list byte -> list byte) (X : list byte)
    (readN : Z -> Z -> ReadResult) (level numThreads : Z) (i : nat) :
  Z.of_nat (length X) <= Int64.max_int -> 1 <= numThreads ->
  Z.of_nat i < numThreads ->
  InMemory.answersWithin X
    (InMemory.partRange (Z.of_nat (length X)) numThreads (Z.of_nat i)) readN ->
  exists chunks,
    Forall (fun c => c <> [] /\ Z.of_nat (length c) <= oneMB) chunks /\
    concat chunks
    = slice (InMemory.partRange (Z.of_nat (length X)) numThreads (Z.of_nat i)).1
        (InMemory.partRange (Z.of_nat (length X)) numThreads (Z.of_nat i)).2 X /\
    InMemory.segmentOf EncodeAll readN (Z.of_nat (length X)) level numThreads i
    = Some (Ok (), concat (EncodeAll level <$> chunks)).
Proof. intros HX HT Hi Hread. by apply segmentOf_within. Qed.

Lemma compressSegment_compresses_its_range_witness :
  let range := InMemory.partRange (Z.of_nat (length smallFile)) 2 (Z.of_nat 1) in
  exists chunks,
    Forall (fun c => c <> [] /\ Z.of_nat (length c) <= oneMB) chunks /\
    concat chunks = slice range.1 range.2 smallFile /\
    InMemory.segmentOf storeEncodeAll (guardedRead smallFile range)
      (Z.of_nat (length smallFile)) 3 2 1
    = Some (Ok (), concat (storeEncodeAll 3 <$> chunks)).
Proof.
  intros range.
  apply (compressSegment_compresses_its_range storeEncodeAll smallFile
           (guardedRead smallFile range) 3 2 1).
  - unfold Int64.max_int. cbn. lia.
  - lia.
  - lia.
  - intros pos m H1 H2 H3. unfold guardedRead.
    change (range.1 <= pos) in H1. change (pos + m <= range.2) in H3.
    rewrite (proj2 (Z.leb_le _ _) H1), (proj2 (Z.leb_le _ _) H3). reflexivity.
Defined.

Lemma Forall2_of_exists {A B} (P : A -> B -> Prop) (l : list A) :
  (forall a, a ∈ l -> exists b, P a b) -> exists k, Forall2 P l k.
Proof.
  induction l as [|a l IH]; intros H; [by exists []|].
  destruct (H a ltac:(left)) as [b Hb].
  destruct IH as [k Hk]; [intros a' Ha'; apply H; by right|].
  exists (b :: k). by constructor.
Qed.

(** X19: round trip of the in-memory block mode, for every file an
    [int64] can size and every [numThreads >= 1]: each goroutine's
    [compressSegment] returns nil, and the segments written in index
    order decompress to the file's content; the codec enters through its
    framing property. *)
Theorem in_memory_roundtrip (EncodeAll : Z -> list byte -> list byte)
    (decode : list byte -> result (list byte)) (X : list byte)
    (level numThreads : Z) :
  (forall level chunks, Forall (fun c => c <> []) chunks ->
     decode (concat (EncodeAll level <$> chunks)) = Ok (concat chunks)) ->
  Z.of_nat (length X) <= Int64.max_int -> 1 <= numThreads ->
  exists compressedData,
    Forall2 (fun i data =>
               InMemory.segmentData EncodeAll X level numThreads i
               = Some (Ok (), data))
      (seq 0 (Z.to_nat numThreads)) compressedData /\
    decompressFile decode (InMemory.writtenOutput compressedData) = Ok X.
Proof.
  intros Hframes HX HT.
  destruct (Forall2_of_exists
              (fun i data =>
                 InMemory.segmentData EncodeAll X level numThreads i
                 = Some (Ok (), data) /\
                 framed (EncodeAll level) X
                   (InMemory.partRange (Z.of_nat (length X)) numThreads (Z.of_nat i))
                   data)
              (seq 0 (Z.to_nat numThreads))) as [datas Hdatas].
  { intros i Hi%elem_of_seq.
    destruct (segmentData_file EncodeAll X level numThreads i
                HX HT ltac:(lia)) as (chunks & Hall & Hcat & Hrun).
    eexists. split; [exact Hrun|]. exists chunks. split; [|done].
    eapply Forall_impl; [done|]. by intros c [? _]. }
  exists datas. split.
  { eapply Forall2_impl; [done|]. by intros i d [? _]. }
  destruct (framed_concat (EncodeAll level) X
              (InMemory.partRanges (Z.of_nat (length X)) numThreads) datas)
    as (chunks & Hne & Hcat & Hpay).
  { unfold InMemory.partRanges. apply Forall2_fmap_l.
    eapply Forall2_impl; [done|]. by intros i d [_ ?]. }
  destruct (partRanges_partition (Z.of_nat (length X)) numThreads
              ltac:(lia) HT) as [(Hc & Hw & Hl & _) _].
  unfold decompressFile, InMemory.writtenOutput.
  rewrite Hpay, Hframes, Hcat by done.
  rewrite (concat_slices X 0 _ ltac:(lia) Hc Hw), Hl. by rewrite slice_all.
Qed.

Lemma in_memory_roundtrip_witness :
  exists compressedData,
    Forall2 (fun i data =>
               InMemory.segmentData storeEncodeAll smallFile 3 2 i
               = Some (Ok (), data))
      (seq 0 (Z.to_nat 2)) compressedData /\
    decompressFile storeDecode (InMemory.writtenOutput compressedData)
    = Ok smallFile.
Proof.
  apply (in_memory_roundtrip storeEncodeAll storeDecode smallFile 3 2).
  - apply store_frames.
  - unfold Int64.max_int. cbn. lia.
  - lia.
Defined.
